(** * Region quadtree over integer points: a shallow embedding of
      [quadtree/quad_region.py] and the properties of its operations.

    The Python module stores a finite set of integer points in a tree of
    [QuadNode]s.  Every node owns a [Region], a [full] flag and four child
    slots indexed by the quadrant constants NE = 0, NW = 1, SW = 2, SE = 3.
    Nodes are never shared between two parents, so in-place updates of a
    node are modelled by returning the updated node to its owner.  The one
    place where object identity matters is the constructor of [QuadTree],
    which copies the caller's [Region] object before rewriting its bounds;
    that part is modelled over an explicit store of region objects
    (module [Store]). *)

From Stdlib Require Import ZArith List Bool Lia Arith.
Import ListNotations.
Open Scope Z_scope.

(* ------------------------------------------------------------------ *)
(** ** Points and regions *)

(** A point is the pair indexed by [pt[X]] and [pt[Y]] in the source. *)
Definition point : Type := (Z * Z)%type.

(** Modelled from the spec: the index constants [X] and [Y] imported from
    [adk.region] are not among the sources; a point is an ordered pair of
    integers, [X] selecting the first and [Y] the second coordinate. *)
Definition X (pt : point) : Z := fst pt.
Definition Y (pt : point) : Z := snd pt.

(** Modelled from the spec: the class [Region] of [adk.region] is not among
    the sources.  It is a value with four integer bounds, built as
    [Region(x_min, y_min, x_max, y_max)], half-open on both axes. *)
Record Region : Type := mkRegion {
  x_min : Z;
  y_min : Z;
  x_max : Z;
  y_max : Z
}.

(** Quadrant constants. *)
Inductive Quadrant : Type := NE | NW | SW | SE.

(** [smaller2k] and [larger2k].  The source computes
    [2**math.floor(math.log2(n))] and [2**math.ceil(math.log2(n))]; the
    embedding uses the exact integer logarithms [Z.log2] and [Z.log2_up].
    The floating-point expression agrees with them on coordinates of
    moderate size (only the logarithm of a number next to a very large
    power of two is rounded to an integer). *)
Definition smaller2k (n : Z) : Z :=
  if n =? 0 then 0
  else if n <? 0 then - 2 ^ Z.log2_up (- n)
  else 2 ^ Z.log2 n.

Definition larger2k (n : Z) : Z :=
  if n =? 0 then 0
  else if n <? 0 then - 2 ^ Z.log2 (- n)
  else 2 ^ Z.log2_up n.

(** [containsPoint]: closed on min, open on max. *)
Definition containsPoint (region : Region) (pt : point) : bool :=
  if X pt <? x_min region then false
  else if X pt >=? x_max region then false
  else if Y pt <? y_min region then false
  else if Y pt >=? y_max region then false
  else true.

(* ------------------------------------------------------------------ *)
(** ** QuadNode *)

(** A node: its region, the [full] flag and the four entries of the
    [children] list, in index order NE, NW, SW, SE.  The attribute [origin]
    is assigned once by the constructor from the region and never
    reassigned, so it is the function [origin] of the node's region. *)
#[warnings="-register-all"]
Inductive QuadNode : Type := mkNode {
  region : Region;
  full : bool;
  cNE : option QuadNode;
  cNW : option QuadNode;
  cSW : option QuadNode;
  cSE : option QuadNode
}.

Definition region_origin (r : Region) : point :=
  (x_min r + (x_max r - x_min r) / 2, y_min r + (y_max r - y_min r) / 2).

Definition origin (self : QuadNode) : point := region_origin (region self).

(** [QuadNode.__init__(region, isFull)] *)
Definition QuadNode_init (r : Region) (isFull : bool) : QuadNode :=
  mkNode r isFull None None None None.

(** [self.children[q]] *)
Definition children (self : QuadNode) (q : Quadrant) : option QuadNode :=
  match q with
  | NE => cNE self
  | NW => cNW self
  | SW => cSW self
  | SE => cSE self
  end.

(** [self.children[q] = c] *)
Definition set_children (self : QuadNode) (q : Quadrant) (c : option QuadNode)
  : QuadNode :=
  match q with
  | NE => mkNode (region self) (full self) c (cNW self) (cSW self) (cSE self)
  | NW => mkNode (region self) (full self) (cNE self) c (cSW self) (cSE self)
  | SW => mkNode (region self) (full self) (cNE self) (cNW self) c (cSE self)
  | SE => mkNode (region self) (full self) (cNE self) (cNW self) (cSW self) c
  end.

(** [self.full = b] *)
Definition set_full (self : QuadNode) (b : bool) : QuadNode :=
  mkNode (region self) b (cNE self) (cNW self) (cSW self) (cSE self).

(** [self.children = [None] * 4] *)
Definition clear_children (self : QuadNode) : QuadNode :=
  mkNode (region self) (full self) None None None None.

Definition region_isPoint (r : Region) : bool :=
  (x_min r + 1 =? x_max r) && (y_min r + 1 =? y_max r).

(** [isPoint] *)
Definition isPoint (self : QuadNode) : bool := region_isPoint (region self).

Definition region_quadrant (r : Region) (pt : point) : Quadrant :=
  if X pt >=? X (region_origin r) then
    if Y pt >=? Y (region_origin r) then NE else SE
  else
    if Y pt >=? Y (region_origin r) then NW else SW.

(** [quadrant] *)
Definition quadrant (self : QuadNode) (pt : point) : Quadrant :=
  region_quadrant (region self) pt.

Definition region_subregion (r : Region) (q : Quadrant) : Region :=
  let o := region_origin r in
  match q with
  | NE => mkRegion (X o) (Y o) (x_max r) (y_max r)
  | NW => mkRegion (x_min r) (Y o) (X o) (y_max r)
  | SW => mkRegion (x_min r) (y_min r) (X o) (Y o)
  | SE => mkRegion (X o) (y_min r) (x_max r) (Y o)
  end.

(** [subregion] *)
Definition subregion (self : QuadNode) (q : Quadrant) : Region :=
  region_subregion (region self) q.

(** [subdivide]: four fresh children carrying the parent's [full] flag. *)
Definition subdivide (self : QuadNode) : QuadNode :=
  mkNode (region self) (full self)
    (Some (QuadNode_init (subregion self NE) (full self)))
    (Some (QuadNode_init (subregion self NW) (full self)))
    (Some (QuadNode_init (subregion self SW) (full self)))
    (Some (QuadNode_init (subregion self SE) (full self))).

Definition is_full (c : option QuadNode) : bool :=
  match c with
  | None => false
  | Some n => full n
  end.

(** [childrenFull] *)
Definition childrenFull (self : QuadNode) : bool :=
  if negb (is_full (cNE self)) then false
  else if negb (is_full (cNW self)) then false
  else if negb (is_full (cSW self)) then false
  else if negb (is_full (cSE self)) then false
  else true.

Definition is_none (c : option QuadNode) : bool :=
  match c with
  | None => true
  | Some _ => false
  end.

(** [childrenNull] *)
Definition childrenNull (self : QuadNode) : bool :=
  if negb (is_none (cNE self)) then false
  else if negb (is_none (cNW self)) then false
  else if negb (is_none (cSW self)) then false
  else if negb (is_none (cSE self)) then false
  else true.

(** *** Outcomes of calls

    A call either returns a value or raises.  The only exception the
    module can raise is the [AttributeError] of calling a method on [None].
    Recursive methods take a recursion budget; [None] at the outermost
    level means that the budget did not suffice. *)
Inductive exn : Type := AttributeError.

Inductive outcome (A : Type) : Type :=
| Returned (a : A)
| Raised (e : exn).
Arguments Returned {A} a.
Arguments Raised {A} e.

(** After a successful insertion into a child: "Perhaps we are full?" *)
Definition merge_if_full (self : QuadNode) : QuadNode :=
  if childrenFull self then clear_children (set_full self true) else self.

(** [QuadNode.add].  The result is the node after the call together with
    the returned boolean. *)
Fixpoint QuadNode_add (fuel : nat) (self : QuadNode) (pt : point)
  : option (QuadNode * bool) :=
  match fuel with
  | O => None
  | S fuel' =>
      let q := quadrant self pt in
      match children self q with
      | None =>
          let c := QuadNode_init (subregion self q) false in
          if isPoint c then
            Some (merge_if_full (set_children self q (Some (set_full c true))),
                  true)
          else
            match QuadNode_add fuel' c pt with
            | None => None
            | Some (c', _) =>
                Some (merge_if_full (set_children self q (Some c')), true)
            end
      | Some c =>
          match QuadNode_add fuel' c pt with
          | None => None
          | Some (c', false) => Some (set_children self q (Some c'), false)
          | Some (c', true) =>
              Some (merge_if_full (set_children self q (Some c')), true)
          end
      end
  end.

(** [QuadNode.remove].  The first component is the node object after the
    call (it has been updated in place even when the call raises), the
    second the outcome: the returned pair [(None, updated)] or
    [(self, updated)], or the exception. *)
Fixpoint QuadNode_remove (fuel : nat) (self : QuadNode) (pt : point)
  : option (QuadNode * outcome (option QuadNode * bool)) :=
  match fuel with
  | O => None
  | S fuel' =>
      if isPoint self then Some (self, Returned (None, true))
      else
        let q := quadrant self pt in
        let self1 :=
          if full self then set_full (subdivide self) false else self in
        match children self1 q with
        | None => Some (self1, Raised AttributeError)
        | Some c =>
            match QuadNode_remove fuel' c pt with
            | None => None
            | Some (c', Raised e) =>
                Some (set_children self1 q (Some c'), Raised e)
            | Some (_, Returned (r, updated)) =>
                let self2 := set_children self1 q r in
                if childrenNull self2 then Some (self2, Returned (None, updated))
                else Some (self2, Returned (Some self2, updated))
            end
        end
  end.

(** The loop of [QuadTree.__contains__], started at node [n]. *)
Fixpoint QuadNode_find (n : QuadNode) (pt : point) {struct n} : bool :=
  if full n then true
  else
    match children n (quadrant n pt) with
    | Some k => QuadNode_find k pt
    | None => false
    end.

(** [preorder]: the node, then the traversal of each present child, in the
    order of the [children] list. *)
Fixpoint preorder (n : QuadNode) {struct n} : list QuadNode :=
  n :: flat_map (fun c => match c with
                          | Some k => preorder k
                          | None => []
                          end)
                [cNE n; cNW n; cSW n; cSE n].

(* ------------------------------------------------------------------ *)
(** ** QuadTree *)

Record QuadTree : Type := mkTree {
  root : option QuadNode;
  tregion : Region
}.

(** The bounds computed by [QuadTree.__init__] from the requested ones. *)
Definition canonical (r : Region) : Region :=
  let xmin2k := smaller2k (x_min r) in
  let ymin2k := smaller2k (y_min r) in
  let xmax2k := larger2k (x_max r) in
  let ymax2k := larger2k (y_max r) in
  mkRegion (Z.min xmin2k ymin2k) (Z.min xmin2k ymin2k)
           (Z.max xmax2k ymax2k) (Z.max xmax2k ymax2k).

(** [QuadTree.__init__], on the value of the requested region. *)
Definition QuadTree_init (r : Region) : QuadTree :=
  mkTree None (canonical r).

(** [QuadTree.add] *)
Definition QuadTree_add (fuel : nat) (self : QuadTree) (pt : point)
  : option (QuadTree * bool) :=
  if negb (containsPoint (tregion self) pt) then Some (self, false)
  else
    let n := match root self with
             | None => QuadNode_init (tregion self) false
             | Some n => n
             end in
    match QuadNode_add fuel n pt with
    | None => None
    | Some (n', b) => Some (mkTree (Some n') (tregion self), b)
    end.

(** [QuadTree.remove] *)
Definition QuadTree_remove (fuel : nat) (self : QuadTree) (pt : point)
  : option (QuadTree * outcome bool) :=
  match root self with
  | None => Some (self, Returned false)
  | Some n =>
      if negb (containsPoint (tregion self) pt) then Some (self, Returned false)
      else
        match QuadNode_remove fuel n pt with
        | None => None
        | Some (n', Raised e) => Some (mkTree (Some n') (tregion self), Raised e)
        | Some (_, Returned (r, updated)) =>
            Some (mkTree r (tregion self), Returned updated)
        end
  end.

(** [QuadTree.__contains__] *)
Definition QuadTree_contains (self : QuadTree) (pt : point) : bool :=
  if negb (containsPoint (tregion self) pt) then false
  else
    match root self with
    | None => false
    | Some n => QuadNode_find n pt
    end.

(** [range(a, b)] *)
Definition range (a b : Z) : list Z :=
  map (fun i => a + Z.of_nat i) (seq 0 (Z.to_nat (b - a))).

(** The points one visited node contributes to [QuadTree.__iter__]. *)
Definition node_points (n : QuadNode) : list point :=
  if full n then
    flat_map (fun x => map (fun y => (x, y))
                           (range (y_min (region n)) (y_max (region n))))
             (range (x_min (region n)) (x_max (region n)))
  else if isPoint n then [(x_min (region n), y_min (region n))]
  else [].

(** [QuadTree.__iter__], as the list of the points it yields in order. *)
Definition QuadTree_iter (self : QuadTree) : list point :=
  match root self with
  | None => []
  | Some n => flat_map node_points (preorder n)
  end.

(* ------------------------------------------------------------------ *)
(** ** The constructor over a store of Region objects

    [QuadTree.__init__] receives a reference to the caller's [Region]
    object, copies it and assigns the attributes of the copy.  The store
    holds the region objects allocated so far; an address is an index. *)
Module Store.

Definition loc : Type := nat.
Definition store : Type := list Region.

Definition read (h : store) (l : loc) : option Region := nth_error h l.

Fixpoint write (h : store) (l : loc) (r : Region) : store :=
  match h, l with
  | [], _ => []
  | _ :: h', O => r :: h'
  | x :: h', S l' => x :: write h' l' r
  end.

Inductive attr : Type := A_x_min | A_y_min | A_x_max | A_y_max.

Definition update (r : Region) (a : attr) (v : Z) : Region :=
  match a with
  | A_x_min => mkRegion v (y_min r) (x_max r) (y_max r)
  | A_y_min => mkRegion (x_min r) v (x_max r) (y_max r)
  | A_x_max => mkRegion (x_min r) (y_min r) v (y_max r)
  | A_y_max => mkRegion (x_min r) (y_min r) (x_max r) v
  end.

(** [obj.a = v] on the object at address [l] *)
Definition setattr (h : store) (l : loc) (a : attr) (v : Z) : store :=
  match read h l with
  | Some r => write h l (update r a v)
  | None => h
  end.

(** Modelled from the spec: the method [Region.copy] of [adk.region] is
    not among the sources.  A region is a plain value of four bounds;
    [copy] allocates a new object holding the same four bounds and
    returns its address. *)
Definition Region_copy (h : store) (l : loc) : option (store * loc) :=
  match read h l with
  | Some r => Some (h ++ [r], length h)
  | None => None
  end.

(** A [QuadTree] object: its root and the address of its region. *)
Record QuadTreeObj : Type := mkObj {
  obj_root : option QuadNode;
  obj_region : loc
}.

(** [QuadTree.__init__(region)] *)
Definition QuadTree_new (h : store) (region : loc)
  : option (store * QuadTreeObj) :=
  match Region_copy h region with
  | None => None
  | Some (h1, self_region) =>
      match read h1 self_region with
      | None => None
      | Some r =>
          let xmin2k := smaller2k (x_min r) in
          let ymin2k := smaller2k (y_min r) in
          let xmax2k := larger2k (x_max r) in
          let ymax2k := larger2k (y_max r) in
          let h2 := setattr h1 self_region A_x_min (Z.min xmin2k ymin2k) in
          let h3 := setattr h2 self_region A_y_min (Z.min xmin2k ymin2k) in
          let h4 := setattr h3 self_region A_x_max (Z.max xmax2k ymax2k) in
          let h5 := setattr h4 self_region A_y_max (Z.max xmax2k ymax2k) in
          Some (h5, mkObj None self_region)
      end
  end.

End Store.

(* ------------------------------------------------------------------ *)
(** ** Vocabulary of the properties *)

Definition point_eqb (p q : point) : bool :=
  (X p =? X q) && (Y p =? Y q).

Definition Quadrant_eqb (a b : Quadrant) : bool :=
  match a, b with
  | NE, NE | NW, NW | SW, SW | SE, SE => true
  | _, _ => false
  end.

(** The east and north sides. *)
Definition east (q : Quadrant) : bool :=
  match q with NE | SE => true | NW | SW => false end.

Definition north (q : Quadrant) : bool :=
  match q with NE | NW => true | SW | SE => false end.

(** A region is square; its side is the [k]-th power of two; a number is
    a power of two; a region encloses another. *)
Definition square (r : Region) : Prop :=
  x_max r - x_min r = y_max r - y_min r.

Definition side_pow2 (r : Region) (k : nat) : Prop :=
  x_max r - x_min r = 2 ^ Z.of_nat k /\ y_max r - y_min r = 2 ^ Z.of_nat k.

Definition pow2_sized (r : Region) : Prop := exists k, side_pow2 r k.

Definition pow2 (n : Z) : Prop := exists k, 0 <= k /\ n = 2 ^ k.

Definition encloses (outer inner : Region) : Prop :=
  x_min outer <= x_min inner /\ y_min outer <= y_min inner /\
  x_max inner <= x_max outer /\ y_max inner <= y_max outer.

(** The compression invariant on a subtree: a full node has no child. *)
Fixpoint compressed (n : QuadNode) {struct n} : bool :=
  (if full n then childrenNull n else true) &&
  forallb (fun c => match c with
                    | Some k => compressed k
                    | None => true
                    end)
          [cNE n; cNW n; cSW n; cSE n].

Definition tree_compressed (t : QuadTree) : bool :=
  match root t with
  | None => true
  | Some n => compressed n
  end.

(** Operations of the public interface and their runs. *)
Inductive op : Type :=
| Add (p : point)
| Remove (p : point).

Definition run_op (fuel : nat) (t : QuadTree) (o : op)
  : option (QuadTree * outcome bool) :=
  match o with
  | Add p =>
      match QuadTree_add fuel t p with
      | None => None
      | Some (t', b) => Some (t', Returned b)
      end
  | Remove p => QuadTree_remove fuel t p
  end.

(** [history r ops t]: the tree [t] is reached from [QuadTree(r)] by the
    calls [ops], the most recent call first.  A call that raises is a step
    too: it leaves the tree as the call updated it. *)
Inductive history (r : Region) : list op -> QuadTree -> Prop :=
| history_init : history r [] (QuadTree_init r)
| history_step ops t o fuel t' res :
    history r ops t ->
    run_op fuel t o = Some (t', res) ->
    history r (o :: ops) t'.

(** The points of the canonical region inserted and not removed since. *)
Fixpoint stored (r : Region) (ops : list op) (p : point) : bool :=
  match ops with
  | [] => false
  | Add q :: ops' =>
      (point_eqb p q && containsPoint (canonical r) q) || stored r ops' p
  | Remove q :: ops' => negb (point_eqb p q) && stored r ops' p
  end.

(** Inserting the points of a list one after the other. *)
Inductive add_all : QuadTree -> list point -> QuadTree -> Prop :=
| add_all_nil t : add_all t [] t
| add_all_cons t p ps fuel t1 b t2 :
    QuadTree_add fuel t p = Some (t1, b) ->
    add_all t1 ps t2 ->
    add_all t (p :: ps) t2.

(** Membership below a child slot. *)
Definition find_opt (c : option QuadNode) (pt : point) : bool :=
  match c with
  | Some k => QuadNode_find k pt
  | None => false
  end.

(** Every child sits on the sub-region of its slot. *)
Inductive wf : QuadNode -> Prop :=
| wf_node n :
    (forall q c, children n q = Some c -> region c = subregion n q) ->
    (forall q c, children n q = Some c -> wf c) ->
    wf n.

Definition tree_wf (t : QuadTree) : Prop :=
  match root t with
  | None => True
  | Some n => wf n /\ region n = tregion t
  end.

(** Height of a subtree and size of a region, bounding recursion depth. *)
Fixpoint height (n : QuadNode) {struct n} : nat :=
  list_max (map (fun c => match c with
                          | Some k => S (height k)
                          | None => O
                          end)
                [cNE n; cNW n; cSW n; cSE n]).

Definition rsize (r : Region) : nat :=
  Z.to_nat (x_max r - x_min r) + Z.to_nat (y_max r - y_min r).

(** Nodes over squares of side [2^k] in which complete occupancy is
    always represented by a full node without children. *)
Inductive compact : nat -> QuadNode -> Prop :=
| compact_full k n :
    side_pow2 (region n) k ->
    full n = true ->
    (forall q, children n q = None) ->
    compact k n
| compact_mixed k n :
    side_pow2 (region n) (S k) ->
    full n = false ->
    childrenFull n = false ->
    (forall q c, children n q = Some c -> region c = subregion n q) ->
    (forall q c, children n q = Some c -> compact k c) ->
    compact (S k) n.

Definition tree_compact (k : nat) (t : QuadTree) : Prop :=
  match root t with
  | None => True
  | Some n => compact k n
  end.

(** Example trees over the region [(0, 0, 2, 2)]: the tree after
    [add((0,0))], and the tree after a second [add((0,0))]. *)
Definition r22 : Region := mkRegion 0 0 2 2.

Definition leaf (r : Region) : QuadNode := mkNode r true None None None None.

Definition tree_one : QuadTree :=
  mkTree (Some (mkNode r22 false
                  None None (Some (leaf (mkRegion 0 0 1 1))) None))
         r22.

Definition tree_dup : QuadTree :=
  mkTree (Some (mkNode r22 false
                  None None
                  (Some (mkNode (mkRegion 0 0 1 1) true
                           (Some (leaf (mkRegion 0 0 1 1))) None None None))
                  None))
         r22.

(** Every point node below the root is full, and a root over a single
    point holds that point: what insertion and removal maintain about
    nodes over 1x1 regions. *)
Inductive points_full : QuadNode -> Prop :=
| points_full_node n :
    (forall q c, children n q = Some c -> isPoint c = true -> full c = true) ->
    (forall q c, children n q = Some c -> points_full c) ->
    points_full n.

(** The points yielded by the traversal of a subtree. *)
Definition subtree_points (n : QuadNode) : list point :=
  flat_map node_points (preorder n).

Definition root_sound (n : QuadNode) : Prop :=
  isPoint n = true ->
  forall p, containsPoint (region n) p = true -> QuadNode_find n p = true.

Definition tree_points_full (t : QuadTree) : Prop :=
  match root t with
  | None => True
  | Some n => points_full n /\ root_sound n
  end.

(** No [add] of the history inserts a point that is stored at that time. *)
Fixpoint no_reinsert (r : Region) (ops : list op) : Prop :=
  match ops with
  | [] => True
  | Add p :: ops' => stored r ops' p = false /\ no_reinsert r ops'
  | Remove _ :: ops' => no_reinsert r ops'
  end.

(** Canonical nodes over squares of side [2^k]: a full node has no child,
    a node that is not full has a child and not four full ones, and
    every child is canonical on the sub-region of its slot. *)
Inductive canon : nat -> QuadNode -> Prop :=
| canon_full k n :
    side_pow2 (region n) k ->
    full n = true ->
    (forall q, children n q = None) ->
    canon k n
| canon_mixed k n :
    side_pow2 (region n) (S k) ->
    full n = false ->
    childrenFull n = false ->
    childrenNull n = false ->
    (forall q c, children n q = Some c -> region c = subregion n q) ->
    (forall q c, children n q = Some c -> canon k c) ->
    canon (S k) n.

Definition tree_canon (k : nat) (t : QuadTree) : Prop :=
  match root t with
  | None => True
  | Some n => canon k n
  end.

(** The points yielded below a child slot. *)
Definition slot_points (c : option QuadNode) : list point :=
  match c with
  | Some k => subtree_points k
  | None => []
  end.

(** A node holds a point of its region. *)
Definition inhabited (n : QuadNode) : Prop :=
  exists p, containsPoint (region n) p = true /\ QuadNode_find n p = true.

(** No node of the subtree is empty, and every full node sits on a square
    whose side is a power of two. *)
Inductive stocked : QuadNode -> Prop :=
| stocked_node n :
    inhabited n ->
    (full n = true -> exists k, side_pow2 (region n) k) ->
    (forall q c, children n q = Some c -> stocked c) ->
    stocked n.

Definition stocked_below (n : QuadNode) : Prop :=
  (full n = true -> exists k, side_pow2 (region n) k) /\
  (forall q c, children n q = Some c -> stocked c).

Definition tree_stocked (t : QuadTree) : Prop :=
  match root t with
  | None => True
  | Some n => stocked n
  end.

(** Coordinates of moderate size: on these [math.log2] is exact enough
    for [math.floor] and [math.ceil] of it to be the integer logarithms
    the embedding of [smaller2k] and [larger2k] uses. *)
Definition moderate (n : Z) : Prop := Z.abs n <= 2 ^ 40.

Definition moderate_region (r : Region) : Prop :=
  moderate (x_min r) /\ moderate (y_min r) /\
  moderate (x_max r) /\ moderate (y_max r).

(* ================================================================== *)
(** * Properties *)

(** ** Regions, quadrants and sub-regions *)

Lemma containsPoint_iff r p :
  containsPoint r p = true <->
  x_min r <= X p < x_max r /\ y_min r <= Y p < y_max r.
Proof.
  unfold containsPoint.
  destruct (Z.ltb_spec (X p) (x_min r)); [split; [discriminate | lia] |].
  destruct (Z.geb_spec (X p) (x_max r)); [split; [discriminate | lia] |].
  destruct (Z.ltb_spec (Y p) (y_min r)); [split; [discriminate | lia] |].
  destruct (Z.geb_spec (Y p) (y_max r)); [split; [discriminate | lia] |].
  split; [lia | reflexivity].
Qed.

Lemma point_eqb_eq p q : point_eqb p q = true <-> p = q.
Proof.
  destruct p as [a b], q as [c d]; unfold point_eqb, X, Y; simpl.
  rewrite andb_true_iff, !Z.eqb_eq.
  split; [intros [-> ->]; reflexivity | intros H; inversion H; auto].
Qed.

Lemma point_eqb_refl p : point_eqb p p = true.
Proof. apply point_eqb_eq; reflexivity. Qed.

Lemma point_eqb_neq p q : point_eqb p q = false <-> p <> q.
Proof.
  rewrite <- point_eqb_eq.
  destruct (point_eqb p q); split; congruence.
Qed.

Lemma Quadrant_eqb_eq a b : Quadrant_eqb a b = true <-> a = b.
Proof. destruct a, b; simpl; split; congruence. Qed.

Lemma quadrant_east r p :
  east (region_quadrant r p) = true <-> X p >= X (region_origin r).
Proof.
  unfold region_quadrant.
  destruct (Z.geb_spec (X p) (X (region_origin r)));
    destruct (Y p >=? Y (region_origin r)); cbn [east]; split; intros;
    try congruence; try reflexivity; lia.
Qed.

Lemma quadrant_north r p :
  north (region_quadrant r p) = true <-> Y p >= Y (region_origin r).
Proof.
  unfold region_quadrant.
  destruct (X p >=? X (region_origin r));
    destruct (Z.geb_spec (Y p) (Y (region_origin r))); cbn [north]; split;
    intros; try congruence; try reflexivity; lia.
Qed.

Ltac region_arith :=
  unfold region_subregion, region_origin, X, Y in *;
  cbn [fst snd x_min y_min x_max y_max] in *;
  Z.to_euclidean_division_equations; lia.

(** The sub-region of the quadrant of a point of the region holds it. *)
Lemma quadrant_in_subregion r p :
  containsPoint r p = true ->
  containsPoint (region_subregion r (region_quadrant r p)) p = true.
Proof.
  intros H. apply containsPoint_iff in H. apply containsPoint_iff.
  unfold region_quadrant.
  destruct (Z.geb_spec (X p) (X (region_origin r)));
    destruct (Z.geb_spec (Y p) (Y (region_origin r)));
    region_arith.
Qed.

(** A point of a sub-region lies in the region, in that quadrant. *)
Lemma subregion_inside r q p :
  containsPoint (region_subregion r q) p = true ->
  containsPoint r p = true /\ region_quadrant r p = q.
Proof.
  intros H. apply containsPoint_iff in H.
  split.
  - apply containsPoint_iff.
    destruct q; simpl in H; region_arith.
  - unfold region_quadrant.
    destruct (Z.geb_spec (X p) (X (region_origin r)));
      destruct (Z.geb_spec (Y p) (Y (region_origin r)));
      destruct q; simpl in H; try reflexivity; region_arith.
Qed.

Lemma isPoint_unique r p q :
  region_isPoint r = true ->
  containsPoint r p = true -> containsPoint r q = true -> p = q.
Proof.
  unfold region_isPoint. rewrite andb_true_iff, !Z.eqb_eq.
  intros [Hx Hy] Hp Hq.
  apply containsPoint_iff in Hp. apply containsPoint_iff in Hq.
  destruct p, q; unfold X, Y in *; simpl in *. f_equal; lia.
Qed.

Lemma isPoint_false r :
  region_isPoint r = false ->
  x_min r + 1 <> x_max r \/ y_min r + 1 <> y_max r.
Proof.
  unfold region_isPoint. rewrite andb_false_iff, !Z.eqb_neq. auto.
Qed.

(** Descending towards a point shrinks the region until it is a point. *)
Lemma rsize_subregion_le r p :
  containsPoint r p = true ->
  (rsize (region_subregion r (region_quadrant r p)) <= rsize r)%nat.
Proof.
  intros H. pose proof (quadrant_in_subregion r p H) as Hs.
  apply containsPoint_iff in H. apply containsPoint_iff in Hs.
  unfold rsize.
  destruct (region_quadrant r p); simpl in *; region_arith.
Qed.

Lemma rsize_subregion_lt r p :
  containsPoint r p = true ->
  region_isPoint r = false ->
  (rsize (region_subregion r (region_quadrant r p)) < rsize r)%nat.
Proof.
  intros H Hp. pose proof (quadrant_in_subregion r p H) as Hs.
  apply containsPoint_iff in H. apply containsPoint_iff in Hs.
  apply isPoint_false in Hp.
  unfold rsize.
  destruct (region_quadrant r p); simpl in *; region_arith.
Qed.

Lemma isPoint_subregion r p :
  containsPoint r p = true ->
  region_isPoint r = true ->
  region_isPoint (region_subregion r (region_quadrant r p)) = true.
Proof.
  intros H Hp. pose proof (quadrant_in_subregion r p H) as Hs.
  apply containsPoint_iff in H. apply containsPoint_iff in Hs.
  unfold region_isPoint in *.
  rewrite andb_true_iff, !Z.eqb_eq in *.
  destruct (region_quadrant r p); simpl in *; region_arith.
Qed.

(** ** Nodes: child slots and structural induction *)

Lemma QuadNode_induction (P : QuadNode -> Prop) :
  (forall n, (forall q c, children n q = Some c -> P c) -> P n) ->
  forall n, P n.
Proof.
  intros H. fix IH 1. intros n. apply H.
  intros q c Hc.
  destruct n as [r f [a|] [b|] [c0|] [d|]]; destruct q; simpl in Hc;
    try discriminate; injection Hc as <-; apply IH.
Qed.

Lemma children_set n q q' c :
  children (set_children n q c) q' =
  if Quadrant_eqb q q' then c else children n q'.
Proof. destruct q, q'; reflexivity. Qed.

Lemma set_children_id n q c : children n q = Some c -> set_children n q (Some c) = n.
Proof. destruct n, q; simpl; intros ->; reflexivity. Qed.

Lemma region_set_children n q c : region (set_children n q c) = region n.
Proof. destruct q; reflexivity. Qed.

Lemma full_set_children n q c : full (set_children n q c) = full n.
Proof. destruct q; reflexivity. Qed.

Lemma find_unfold n pt :
  QuadNode_find n pt =
  if full n then true
  else match children n (quadrant n pt) with
       | Some k => QuadNode_find k pt
       | None => false
       end.
Proof. destruct n; reflexivity. Qed.

Lemma childrenFull_iff n :
  childrenFull n = true <->
  forall q, exists c, children n q = Some c /\ full c = true.
Proof.
  unfold childrenFull, is_full. split.
  - intros H q.
    destruct (cNE n) as [a|] eqn:Ea; [destruct (full a) eqn:Fa |]; try discriminate.
    destruct (cNW n) as [b|] eqn:Eb; [destruct (full b) eqn:Fb |]; try discriminate.
    destruct (cSW n) as [c|] eqn:Ec; [destruct (full c) eqn:Fc |]; try discriminate.
    destruct (cSE n) as [d|] eqn:Ed; [destruct (full d) eqn:Fd |]; try discriminate.
    destruct q; simpl; eauto.
  - intros H.
    destruct (H NE) as (a & Ea & Fa), (H NW) as (b & Eb & Fb),
             (H SW) as (c & Ec & Fc), (H SE) as (d & Ed & Fd).
    simpl in *. rewrite Ea, Eb, Ec, Ed, Fa, Fb, Fc, Fd. reflexivity.
Qed.

Lemma childrenNull_iff n :
  childrenNull n = true <-> forall q, children n q = None.
Proof.
  unfold childrenNull, is_none. split.
  - intros H q.
    destruct (cNE n) eqn:Ea; try discriminate.
    destruct (cNW n) eqn:Eb; try discriminate.
    destruct (cSW n) eqn:Ec; try discriminate.
    destruct (cSE n) eqn:Ed; try discriminate.
    destruct q; assumption.
  - intros H.
    pose proof (H NE) as Ea. pose proof (H NW) as Eb.
    pose proof (H SW) as Ec. pose proof (H SE) as Ed.
    simpl in *. rewrite Ea, Eb, Ec, Ed. reflexivity.
Qed.

Lemma wf_init r f : wf (QuadNode_init r f).
Proof. constructor; intros [] c H; discriminate. Qed.

Lemma wf_children n q c : wf n -> children n q = Some c -> wf c /\ region c = subregion n q.
Proof. intros H Hc. inversion H; subst. eauto. Qed.

Lemma wf_set_children n q c :
  wf n ->
  match c with
  | Some k => wf k /\ region k = subregion n q
  | None => True
  end ->
  wf (set_children n q c).
Proof.
  intros Hn Hc. inversion Hn as [n0 Hr Hw]; subst.
  constructor; intros q' k; rewrite children_set;
    destruct (Quadrant_eqb q q') eqn:E.
  - apply Quadrant_eqb_eq in E. subst q'. intros ->.
    unfold subregion. rewrite region_set_children. apply Hc.
  - unfold subregion. rewrite region_set_children. apply Hr.
  - intros ->. apply Hc.
  - apply Hw.
Qed.

Lemma merge_if_full_region n : region (merge_if_full n) = region n.
Proof. unfold merge_if_full. destruct (childrenFull n); reflexivity. Qed.

Lemma wf_merge_if_full n : wf n -> wf (merge_if_full n).
Proof.
  unfold merge_if_full. destruct (childrenFull n); auto.
  intros _. constructor; intros [] c H; discriminate.
Qed.

Lemma find_merge_if_full n pt :
  QuadNode_find (merge_if_full n) pt = QuadNode_find n pt.
Proof.
  unfold merge_if_full. destruct (childrenFull n) eqn:E; auto.
  rewrite (find_unfold n). destruct (full n); [reflexivity |].
  apply childrenFull_iff with (q := quadrant n pt) in E.
  destruct E as (c & -> & Hc).
  rewrite (find_unfold c), Hc. reflexivity.
Qed.

(** Replacing the child of one quadrant changes membership only there. *)
Lemma find_set_children n q c pt :
  QuadNode_find (set_children n q c) pt =
  if full n then true
  else if Quadrant_eqb q (quadrant n pt) then find_opt c pt
  else QuadNode_find n pt.
Proof.
  rewrite find_unfold, full_set_children.
  destruct (full n) eqn:F; [reflexivity |].
  unfold quadrant. rewrite region_set_children, children_set.
  fold (quadrant n pt).
  destruct (Quadrant_eqb q (quadrant n pt)); [reflexivity |].
  rewrite (find_unfold n), F. reflexivity.
Qed.

(** ** Insertion into a node *)

Lemma find_init r pt : QuadNode_find (QuadNode_init r false) pt = false.
Proof. unfold QuadNode_init. rewrite find_unfold. simpl. destruct (quadrant _ _); reflexivity. Qed.

Lemma find_not_full n pt :
  full n = false ->
  QuadNode_find n pt = find_opt (children n (quadrant n pt)) pt.
Proof. intros F. rewrite find_unfold, F. reflexivity. Qed.

Lemma add_child_spec n p c' :
  wf n ->
  containsPoint (region n) p = true ->
  wf c' ->
  region c' = subregion n (quadrant n p) ->
  (forall q, containsPoint (region c') q = true ->
             QuadNode_find c' q =
             point_eqb q p || find_opt (children n (quadrant n p)) q) ->
  let n' := merge_if_full (set_children n (quadrant n p) (Some c')) in
  wf n' /\ region n' = region n /\
  forall q, containsPoint (region n) q = true ->
            QuadNode_find n' q = point_eqb q p || QuadNode_find n q.
Proof.
  intros Hn Hp Hc Hr Hfind n'. subst n'. split; [| split].
  - apply wf_merge_if_full, wf_set_children; auto.
  - rewrite merge_if_full_region, region_set_children. reflexivity.
  - intros q Hq.
    rewrite find_merge_if_full, find_set_children.
    destruct (full n) eqn:F.
    + rewrite (find_unfold n), F, orb_true_r. reflexivity.
    + destruct (Quadrant_eqb (quadrant n p) (quadrant n q)) eqn:E.
      * apply Quadrant_eqb_eq in E.
        rewrite (find_not_full n q F), <- E.
        apply Hfind. rewrite Hr, E. apply quadrant_in_subregion, Hq.
      * destruct (point_eqb q p) eqn:Eq; [| reflexivity].
        apply point_eqb_eq in Eq. subst q.
        assert (Quadrant_eqb (quadrant n p) (quadrant n p) = true)
          by (apply Quadrant_eqb_eq; reflexivity).
        congruence.
Qed.

(** What [QuadNode.add] does on a node whose region holds the point: it
    returns [True], keeps the node well-formed and adds exactly that point
    to the points found below the node. *)
Lemma QuadNode_add_spec fuel :
  forall n p n' b,
    wf n ->
    containsPoint (region n) p = true ->
    QuadNode_add fuel n p = Some (n', b) ->
    b = true /\ wf n' /\ region n' = region n /\
    forall q, containsPoint (region n) q = true ->
              QuadNode_find n' q = point_eqb q p || QuadNode_find n q.
Proof.
  induction fuel as [| fuel IH]; intros n p n' b Hn Hp Hadd; [discriminate |].
  simpl in Hadd.
  pose proof (quadrant_in_subregion (region n) p Hp) as Hsub.
  fold (quadrant n p) in Hsub. fold (subregion n (quadrant n p)) in Hsub.
  destruct (children n (quadrant n p)) as [c |] eqn:Ec.
  - destruct (wf_children _ _ _ Hn Ec) as [Hc Hrc].
    destruct (QuadNode_add fuel c p) as [[c' b'] |] eqn:Ea; [| discriminate].
    rewrite <- Hrc in Hsub.
    destruct (IH _ _ _ _ Hc Hsub Ea) as (-> & Hc' & Hr' & Hf').
    injection Hadd as <- <-. split; [reflexivity |].
    apply add_child_spec; auto.
    + congruence.
    + rewrite Ec. simpl. intros q Hq. apply Hf'. congruence.
  - destruct (isPoint (QuadNode_init (subregion n (quadrant n p)) false)) eqn:Ep.
    + injection Hadd as <- <-. split; [reflexivity |].
      apply add_child_spec; auto.
      * constructor; intros [] c H; discriminate.
      * rewrite Ec. simpl. intros q Hq.
        rewrite orb_false_r. symmetry. apply point_eqb_eq.
        apply (isPoint_unique _ _ _ Ep Hq Hsub).
    + destruct (QuadNode_add fuel (QuadNode_init (subregion n (quadrant n p)) false) p)
        as [[c' b'] |] eqn:Ea; [| discriminate].
      destruct (IH _ _ _ _ (wf_init _ _) Hsub Ea) as (_ & Hc' & Hr' & Hf').
      injection Hadd as <- <-. split; [reflexivity |].
      apply add_child_spec; auto.
      rewrite Ec. simpl. intros q Hq.
      rewrite Hr' in Hq. rewrite (Hf' q Hq), find_init. reflexivity.
Qed.

(** ** Removal from a node *)

Lemma remove_child_spec n1 p c r :
  wf n1 ->
  full n1 = false ->
  children n1 (quadrant n1 p) = Some c ->
  match r with
  | Some k => wf k /\ region k = region c
  | None => True
  end ->
  (forall q, containsPoint (region c) q = true ->
             find_opt r q = QuadNode_find c q && negb (point_eqb q p)) ->
  let n2 := set_children n1 (quadrant n1 p) r in
  wf n2 /\ region n2 = region n1 /\
  (forall q, containsPoint (region n1) q = true ->
             QuadNode_find n2 q = QuadNode_find n1 q && negb (point_eqb q p)) /\
  (childrenNull n2 = true -> forall q, QuadNode_find n2 q = false).
Proof.
  intros Hn F Ec Hr Hfind n2. subst n2.
  destruct (wf_children _ _ _ Hn Ec) as [Hc Hrc].
  split; [| split; [| split]].
  - apply wf_set_children; auto.
    destruct r as [k |]; auto. destruct Hr. split; congruence.
  - apply region_set_children.
  - intros q Hq. rewrite find_set_children, F.
    destruct (Quadrant_eqb (quadrant n1 p) (quadrant n1 q)) eqn:E.
    + apply Quadrant_eqb_eq in E.
      rewrite (find_not_full n1 q F), <- E, Ec. simpl.
      apply Hfind. rewrite Hrc, E. apply quadrant_in_subregion, Hq.
    + destruct (point_eqb q p) eqn:Eq.
      * apply point_eqb_eq in Eq. subst q.
        assert (Quadrant_eqb (quadrant n1 p) (quadrant n1 p) = true)
          by (apply Quadrant_eqb_eq; reflexivity).
        congruence.
      * rewrite andb_true_r. reflexivity.
  - intros Hnull q. rewrite find_unfold, full_set_children, F.
    rewrite childrenNull_iff in Hnull. rewrite Hnull. reflexivity.
Qed.

Lemma wf_subdivide n : wf (set_full (subdivide n) false).
Proof.
  constructor.
  - intros [] c H; simpl in H; injection H as <-; reflexivity.
  - intros [] c H; simpl in H; injection H as <-; apply wf_init.
Qed.

Lemma children_subdivide n q :
  children (set_full (subdivide n) false) q =
  Some (QuadNode_init (subregion n q) (full n)).
Proof. destruct q; reflexivity. Qed.

Lemma find_subdivide n pt :
  full n = true -> QuadNode_find (set_full (subdivide n) false) pt = true.
Proof.
  intros F. rewrite find_unfold. cbn [full set_full].
  rewrite children_subdivide, F. reflexivity.
Qed.

(** What [QuadNode.remove] does on a well-formed node whose region holds
    the point.  A call that raises has changed nothing and the point was
    not below the node; a call that returns reports [True], and the node it
    returns (or [None]) holds the former points except the removed one. *)
Lemma QuadNode_remove_spec fuel :
  forall n p n' o,
    wf n ->
    containsPoint (region n) p = true ->
    QuadNode_remove fuel n p = Some (n', o) ->
    match o with
    | Raised _ => n' = n /\ QuadNode_find n p = false
    | Returned (r, u) =>
        u = true /\
        match r with
        | Some k => wf k /\ region k = region n
        | None => True
        end /\
        forall q, containsPoint (region n) q = true ->
                  find_opt r q = QuadNode_find n q && negb (point_eqb q p)
    end.
Proof.
  induction fuel as [| fuel IH]; intros n p n' o Hn Hp Hrem; [discriminate |].
  simpl in Hrem.
  destruct (isPoint n) eqn:Ept.
  { injection Hrem as <- <-. split; [reflexivity | split; [exact I |]].
    intros q Hq. simpl.
    assert (q = p) by (apply (isPoint_unique _ _ _ Ept Hq Hp)). subst q.
    rewrite point_eqb_refl, andb_false_r. reflexivity. }
  pose proof (quadrant_in_subregion (region n) p Hp) as Hsub.
  fold (quadrant n p) in Hsub. fold (subregion n (quadrant n p)) in Hsub.
  destruct (full n) eqn:F.
  - (* a full node is subdivided first *)
    rewrite children_subdivide, F in Hrem.
    destruct (QuadNode_remove fuel (QuadNode_init (subregion n (quadrant n p)) true) p)
      as [[c' oc] |] eqn:Er; [| discriminate].
    pose proof (IH _ _ _ _ (wf_init _ _) Hsub Er) as Hc.
    destruct oc as [[r u] | e].
    + destruct Hc as (-> & Hr & Hfind).
      assert (Hn1 : wf (set_full (subdivide n) false)) by apply wf_subdivide.
      assert (Hq1 : children (set_full (subdivide n) false)
                      (quadrant (set_full (subdivide n) false) p) =
                    Some (QuadNode_init (subregion n (quadrant n p)) true))
        by (rewrite children_subdivide, F; reflexivity).
      destruct (remove_child_spec _ p _ r Hn1 eq_refl Hq1 Hr Hfind)
        as (Hw2 & Hr2 & Hf2 & Hnull).
      change (quadrant (set_full (subdivide n) false) p)
        with (quadrant n p) in *.
      assert (Hres : forall q, containsPoint (region n) q = true ->
                QuadNode_find (set_children (set_full (subdivide n) false)
                                 (quadrant n p) r) q =
                QuadNode_find n q && negb (point_eqb q p)).
      { intros q Hq. rewrite (Hf2 q Hq), (find_subdivide n q F).
        rewrite (find_unfold n), F. reflexivity. }
      destruct (childrenNull _) eqn:En; injection Hrem as <- <-.
      * split; [reflexivity | split; [exact I |]].
        intros q Hq. simpl. rewrite <- (Hres q Hq). symmetry. apply Hnull; auto.
      * split; [reflexivity | split; [split; [exact Hw2 | exact Hr2] |]].
        exact Hres.
    + destruct Hc as [_ Hc]. rewrite find_unfold in Hc. discriminate.
  - (* a node that is not full *)
    destruct (children n (quadrant n p)) as [c |] eqn:Ec.
    + destruct (wf_children _ _ _ Hn Ec) as [Hwc Hrc].
      destruct (QuadNode_remove fuel c p) as [[c' oc] |] eqn:Er; [| discriminate].
      rewrite <- Hrc in Hsub.
      pose proof (IH _ _ _ _ Hwc Hsub Er) as Hc.
      destruct oc as [[r u] | e].
      * destruct Hc as (-> & Hr & Hfind).
        destruct (remove_child_spec _ p _ r Hn F Ec Hr Hfind)
          as (Hw2 & Hr2 & Hf2 & Hnull).
        destruct (childrenNull _) eqn:En; injection Hrem as <- <-.
        -- split; [reflexivity | split; [exact I |]].
           intros q Hq. simpl. rewrite <- (Hf2 q Hq). symmetry. apply Hnull; auto.
        -- split; [reflexivity | split; [split; [exact Hw2 | exact Hr2] |]].
           exact Hf2.
      * destruct Hc as [-> Hc]. injection Hrem as <- <-.
        split; [apply set_children_id, Ec |].
        rewrite (find_not_full n p F), Ec. exact Hc.
    + injection Hrem as <- <-. split; [reflexivity |].
      rewrite (find_not_full n p F), Ec. reflexivity.
Qed.

(** ** Enough recursion budget gives a result *)

Lemma height_unfold n :
  height n =
  list_max (map (fun c => match c with
                          | Some k => S (height k)
                          | None => O
                          end)
                [cNE n; cNW n; cSW n; cSE n]).
Proof. destruct n; reflexivity. Qed.

Lemma height_children n q c :
  children n q = Some c -> (S (height c) <= height n)%nat.
Proof.
  intros H. rewrite (height_unfold n). simpl.
  destruct q; simpl in H; rewrite H; lia.
Qed.

Lemma height_init r f : height (QuadNode_init r f) = O.
Proof. reflexivity. Qed.

Lemma rsize_fresh_child r p :
  containsPoint r p = true ->
  region_isPoint (region_subregion r (region_quadrant r p)) = false ->
  (rsize (region_subregion r (region_quadrant r p)) < rsize r)%nat.
Proof.
  intros Hp Hs. destruct (region_isPoint r) eqn:E.
  - rewrite (isPoint_subregion r p Hp E) in Hs. discriminate.
  - apply rsize_subregion_lt; assumption.
Qed.

Lemma QuadNode_add_total fuel :
  forall n p,
    wf n ->
    containsPoint (region n) p = true ->
    (height n + rsize (region n) < fuel)%nat ->
    exists n' b, QuadNode_add fuel n p = Some (n', b).
Proof.
  induction fuel as [| fuel IH]; intros n p Hn Hp Hfuel; [lia |].
  simpl.
  pose proof (quadrant_in_subregion (region n) p Hp) as Hsub.
  pose proof (rsize_subregion_le (region n) p Hp) as Hle.
  fold (quadrant n p) in *. fold (subregion n (quadrant n p)) in *.
  destruct (children n (quadrant n p)) as [c |] eqn:Ec.
  - destruct (wf_children _ _ _ Hn Ec) as [Hc Hrc].
    pose proof (height_children _ _ _ Ec) as Hh.
    rewrite <- Hrc in Hsub, Hle.
    destruct (IH c p Hc Hsub) as (c' & b' & ->); [lia |].
    destruct b'; eauto.
  - destruct (isPoint _) eqn:Ept; [eauto |].
    pose proof (rsize_fresh_child (region n) p Hp Ept) as Hlt.
    fold (quadrant n p) in Hlt. fold (subregion n (quadrant n p)) in Hlt.
    destruct (IH (QuadNode_init (subregion n (quadrant n p)) false) p
                 (wf_init _ _) Hsub) as (c' & b' & ->).
    + rewrite height_init. simpl. lia.
    + eauto.
Qed.

Lemma QuadNode_remove_total fuel :
  forall n p,
    wf n ->
    containsPoint (region n) p = true ->
    (height n + rsize (region n) < fuel)%nat ->
    exists n' o, QuadNode_remove fuel n p = Some (n', o).
Proof.
  induction fuel as [| fuel IH]; intros n p Hn Hp Hfuel; [lia |].
  simpl.
  destruct (isPoint n) eqn:Ept; [eauto |].
  pose proof (quadrant_in_subregion (region n) p Hp) as Hsub.
  pose proof (rsize_subregion_lt (region n) p Hp Ept) as Hlt.
  fold (quadrant n p) in *. fold (subregion n (quadrant n p)) in *.
  destruct (full n) eqn:F.
  - rewrite children_subdivide, F.
    destruct (IH (QuadNode_init (subregion n (quadrant n p)) true) p
                 (wf_init _ _) Hsub) as (c' & oc & ->).
    + rewrite height_init. simpl. lia.
    + destruct oc as [[r u] | e]; [| eauto].
      destruct (childrenNull _); eauto.
  - destruct (children n (quadrant n p)) as [c |] eqn:Ec; [| eauto].
    destruct (wf_children _ _ _ Hn Ec) as [Hc Hrc].
    pose proof (height_children _ _ _ Ec) as Hh.
    rewrite <- Hrc in Hsub, Hlt.
    destruct (IH c p Hc Hsub) as (c' & oc & ->); [lia |].
    destruct oc as [[r u] | e]; [| eauto].
    destruct (childrenNull _); eauto.
Qed.

(** A larger budget does not change a result. *)
Lemma QuadNode_add_S fuel n p :
  QuadNode_add (S fuel) n p =
  match children n (quadrant n p) with
  | None =>
      if isPoint (QuadNode_init (subregion n (quadrant n p)) false) then
        Some (merge_if_full
                (set_children n (quadrant n p)
                   (Some (set_full (QuadNode_init (subregion n (quadrant n p)) false)
                                   true))),
              true)
      else
        match QuadNode_add fuel (QuadNode_init (subregion n (quadrant n p)) false) p with
        | None => None
        | Some (c', _) =>
            Some (merge_if_full (set_children n (quadrant n p) (Some c')), true)
        end
  | Some c =>
      match QuadNode_add fuel c p with
      | None => None
      | Some (c', false) => Some (set_children n (quadrant n p) (Some c'), false)
      | Some (c', true) =>
          Some (merge_if_full (set_children n (quadrant n p) (Some c')), true)
      end
  end.
Proof. reflexivity. Qed.

Lemma QuadNode_add_mono fuel :
  forall n p res,
    QuadNode_add fuel n p = Some res -> QuadNode_add (S fuel) n p = Some res.
Proof.
  induction fuel as [| fuel IH]; intros n p res H; [discriminate |].
  rewrite QuadNode_add_S in H. rewrite QuadNode_add_S.
  destruct (children n (quadrant n p)) as [c |].
  - destruct (QuadNode_add fuel c p) as [[c' b'] |] eqn:E; [| discriminate].
    rewrite (IH _ _ _ E). exact H.
  - destruct (isPoint _); [exact H |].
    destruct (QuadNode_add fuel _ p) as [[c' b'] |] eqn:E; [| discriminate].
    rewrite (IH _ _ _ E). exact H.
Qed.

Lemma QuadNode_remove_S fuel n p :
  QuadNode_remove (S fuel) n p =
  if isPoint n then Some (n, Returned (None, true))
  else
    match children (if full n then set_full (subdivide n) false else n)
                   (quadrant n p) with
    | None => Some (if full n then set_full (subdivide n) false else n,
                    Raised AttributeError)
    | Some c =>
        match QuadNode_remove fuel c p with
        | None => None
        | Some (c', Raised e) =>
            Some (set_children (if full n then set_full (subdivide n) false else n)
                    (quadrant n p) (Some c'), Raised e)
        | Some (_, Returned (r, updated)) =>
            if childrenNull
                 (set_children (if full n then set_full (subdivide n) false else n)
                    (quadrant n p) r)
            then Some (set_children
                         (if full n then set_full (subdivide n) false else n)
                         (quadrant n p) r, Returned (None, updated))
            else Some (set_children
                         (if full n then set_full (subdivide n) false else n)
                         (quadrant n p) r,
                       Returned (Some (set_children
                         (if full n then set_full (subdivide n) false else n)
                         (quadrant n p) r), updated))
        end
    end.
Proof. reflexivity. Qed.

Lemma QuadNode_remove_mono fuel :
  forall n p res,
    QuadNode_remove fuel n p = Some res -> QuadNode_remove (S fuel) n p = Some res.
Proof.
  induction fuel as [| fuel IH]; intros n p res H; [discriminate |].
  rewrite QuadNode_remove_S in H. rewrite QuadNode_remove_S.
  destruct (isPoint n); [exact H |].
  destruct (children _ _) as [c |]; [| exact H].
  destruct (QuadNode_remove fuel c p) as [[c' oc] |] eqn:E; [| discriminate].
  rewrite (IH _ _ _ E). exact H.
Qed.

Lemma QuadNode_add_mono_le fuel fuel' n p res :
  (fuel <= fuel')%nat ->
  QuadNode_add fuel n p = Some res -> QuadNode_add fuel' n p = Some res.
Proof.
  induction 1 as [| m Hle IH]; intros H; [exact H |].
  apply QuadNode_add_mono, IH, H.
Qed.

Lemma QuadNode_remove_mono_le fuel fuel' n p res :
  (fuel <= fuel')%nat ->
  QuadNode_remove fuel n p = Some res -> QuadNode_remove fuel' n p = Some res.
Proof.
  induction 1 as [| m Hle IH]; intros H; [exact H |].
  apply QuadNode_remove_mono, IH, H.
Qed.

(** ** The tree operations *)

Lemma tree_wf_init r : tree_wf (QuadTree_init r).
Proof. exact I. Qed.

(** The node [QuadTree.add] works on: the root, created if absent. *)
Lemma root_or_fresh t :
  tree_wf t ->
  let n := match root t with
           | None => QuadNode_init (tregion t) false
           | Some n => n
           end in
  wf n /\ region n = tregion t /\
  forall q, QuadNode_find n q = find_opt (root t) q.
Proof.
  unfold tree_wf. destruct (root t) as [n |]; simpl.
  - intros [Hn Hr]. auto.
  - intros _. split; [apply wf_init | split; [reflexivity |]].
    intros q. apply find_init.
Qed.

Lemma contains_unfold t q :
  QuadTree_contains t q = containsPoint (tregion t) q && find_opt (root t) q.
Proof.
  unfold QuadTree_contains.
  destruct (containsPoint (tregion t) q); simpl; [| reflexivity].
  destruct (root t); reflexivity.
Qed.

Lemma QuadTree_add_spec fuel t p t' b :
  tree_wf t ->
  QuadTree_add fuel t p = Some (t', b) ->
  tree_wf t' /\ tregion t' = tregion t /\
  b = containsPoint (tregion t) p /\
  (b = true -> root t' <> None) /\
  forall q, QuadTree_contains t' q =
            (point_eqb q p && containsPoint (tregion t) p) ||
            QuadTree_contains t q.
Proof.
  intros Ht Hadd. unfold QuadTree_add in Hadd.
  destruct (containsPoint (tregion t) p) eqn:Hp; simpl in Hadd.
  - destruct (root_or_fresh t Ht) as (Hn & Hr & Hf).
    set (n := match root t with
              | None => QuadNode_init (tregion t) false
              | Some n => n
              end) in *.
    destruct (QuadNode_add fuel n p) as [[n' b'] |] eqn:Ea; [| discriminate].
    injection Hadd as <- <-.
    rewrite <- Hr in Hp.
    destruct (QuadNode_add_spec fuel n p _ _ Hn Hp Ea) as (-> & Hn' & Hr' & Hf').
    split; [| split; [| split; [| split]]]; try reflexivity.
    + split; [assumption | simpl; congruence].
    + simpl. discriminate.
    + intros q. rewrite !contains_unfold. simpl.
      rewrite andb_true_r.
      destruct (containsPoint (tregion t) q) eqn:Hq; simpl.
      * rewrite <- Hr in Hq. rewrite (Hf' q Hq), Hf. reflexivity.
      * rewrite orb_false_r. symmetry. apply point_eqb_neq.
        intros ->. rewrite Hr in Hp. congruence.
  - injection Hadd as <- <-.
    split; [| split; [| split; [| split]]]; auto; try discriminate.
    intros q. rewrite andb_false_r. reflexivity.
Qed.

Lemma QuadTree_add_enough t p :
  tree_wf t ->
  exists fuel0 t' b,
    forall fuel, (fuel0 <= fuel)%nat -> QuadTree_add fuel t p = Some (t', b).
Proof.
  intros Ht. unfold QuadTree_add.
  destruct (containsPoint (tregion t) p) eqn:Hp; simpl.
  - destruct (root_or_fresh t Ht) as (Hn & Hr & Hf).
    set (n := match root t with
              | None => QuadNode_init (tregion t) false
              | Some n => n
              end) in *.
    rewrite <- Hr in Hp.
    destruct (QuadNode_add_total (S (height n + rsize (region n))) n p Hn Hp)
      as (n' & b & E); [lia |].
    exists (S (height n + rsize (region n))), (mkTree (Some n') (tregion t)), b.
    intros fuel Hle. rewrite (QuadNode_add_mono_le _ _ _ _ _ Hle E). reflexivity.
  - exists O, t, false. reflexivity.
Qed.

Lemma QuadTree_add_total t p :
  tree_wf t -> exists fuel t' b, QuadTree_add fuel t p = Some (t', b).
Proof.
  intros Ht. destruct (QuadTree_add_enough t p Ht) as (fuel0 & t' & b & H).
  exists fuel0, t', b. apply H. lia.
Qed.

Lemma QuadTree_remove_spec fuel t p t' o :
  tree_wf t ->
  QuadTree_remove fuel t p = Some (t', o) ->
  tree_wf t' /\ tregion t' = tregion t /\
  (forall q, QuadTree_contains t' q =
             QuadTree_contains t q && negb (point_eqb q p)) /\
  match o with
  | Raised _ => t' = t /\ QuadTree_contains t p = false
  | Returned u => u = true \/ (t' = t /\ QuadTree_contains t p = false)
  end.
Proof.
  intros Ht Hrem. unfold QuadTree_remove in Hrem.
  assert (Hsame : QuadTree_contains t p = false ->
            forall q, QuadTree_contains t q =
                      QuadTree_contains t q && negb (point_eqb q p)).
  { intros Hp q. destruct (point_eqb q p) eqn:E.
    - apply point_eqb_eq in E. subst q. rewrite Hp. reflexivity.
    - rewrite andb_true_r. reflexivity. }
  destruct (root t) as [n |] eqn:Eroot.
  - destruct (containsPoint (tregion t) p) eqn:Hp; simpl in Hrem.
    + assert (Hn : wf n /\ region n = tregion t)
        by (unfold tree_wf in Ht; rewrite Eroot in Ht; exact Ht).
      destruct Hn as [Hn Hr].
      destruct (QuadNode_remove fuel n p) as [[n' on] |] eqn:Er; [| discriminate].
      rewrite <- Hr in Hp.
      pose proof (QuadNode_remove_spec fuel n p _ _ Hn Hp Er) as Hspec.
      destruct on as [[r u] | e]; injection Hrem as <- <-.
      * destruct Hspec as (-> & Hk & Hfind).
        split; [| split; [reflexivity | split; [| left; reflexivity]]].
        -- unfold tree_wf. simpl. destruct r as [k |]; [| exact I].
           destruct Hk. split; congruence.
        -- intros q. rewrite !contains_unfold, Eroot. simpl.
           destruct (containsPoint (tregion t) q) eqn:Hq; simpl; [| reflexivity].
           rewrite <- Hr in Hq. apply Hfind, Hq.
      * destruct Hspec as [-> Hfind].
        assert (Hc : QuadTree_contains t p = false).
        { rewrite contains_unfold, Eroot. simpl. rewrite Hfind.
          apply andb_false_r. }
        assert (Et : mkTree (Some n) (tregion t) = t)
          by (destruct t; simpl in *; congruence).
        rewrite Et. auto.
    + injection Hrem as <- <-.
      assert (Hc : QuadTree_contains t p = false)
        by (rewrite contains_unfold, Hp; reflexivity).
      auto 6.
  - injection Hrem as <- <-.
    assert (Hc : QuadTree_contains t p = false)
      by (rewrite contains_unfold, Eroot; apply andb_false_r).
    auto 6.
Qed.

Lemma QuadTree_remove_enough t p :
  tree_wf t ->
  exists fuel0 t' o,
    forall fuel, (fuel0 <= fuel)%nat -> QuadTree_remove fuel t p = Some (t', o).
Proof.
  intros Ht. unfold QuadTree_remove.
  destruct (root t) as [n |] eqn:Eroot; [| exists O; eauto].
  destruct (containsPoint (tregion t) p) eqn:Hp; simpl; [| exists O; eauto].
  assert (Hn : wf n /\ region n = tregion t)
    by (unfold tree_wf in Ht; rewrite Eroot in Ht; exact Ht).
  destruct Hn as [Hn Hr]. rewrite <- Hr in Hp.
  destruct (QuadNode_remove_total (S (height n + rsize (region n))) n p Hn Hp)
    as (n' & o & E); [lia |].
  exists (S (height n + rsize (region n))).
  destruct o as [[r u] | e].
  - exists (mkTree r (tregion t)), (Returned u). intros fuel Hle.
    rewrite (QuadNode_remove_mono_le _ _ _ _ _ Hle E). reflexivity.
  - exists (mkTree (Some n') (tregion t)), (Raised e). intros fuel Hle.
    rewrite (QuadNode_remove_mono_le _ _ _ _ _ Hle E). reflexivity.
Qed.

(** ** Histories: the tree holds the points inserted and not removed *)

Lemma history_sound r ops t :
  history r ops t ->
  tree_wf t /\ tregion t = canonical r /\
  forall q, QuadTree_contains t q = stored r ops q.
Proof.
  induction 1 as [| ops t o fuel t' res Hh (Hw & Hr & Hc) Hrun].
  - split; [apply tree_wf_init | split; [reflexivity |]].
    intros q. rewrite contains_unfold. simpl. apply andb_false_r.
  - destruct o as [p | p]; simpl in Hrun.
    + destruct (QuadTree_add fuel t p) as [[t1 b] |] eqn:Ea; [| discriminate].
      injection Hrun as <- <-.
      destruct (QuadTree_add_spec fuel t p _ _ Hw Ea) as (Hw' & Hr' & _ & _ & Hc').
      split; [assumption | split; [congruence |]].
      intros q. simpl. rewrite Hc', Hc, Hr. reflexivity.
    + destruct (QuadTree_remove_spec fuel t p _ _ Hw Hrun) as (Hw' & Hr' & Hc' & _).
      split; [assumption | split; [congruence |]].
      intros q. simpl. rewrite Hc', Hc. apply andb_comm.
Qed.

Lemma add_all_sound t ps t' :
  add_all t ps t' ->
  tree_wf t ->
  tree_wf t' /\ tregion t' = tregion t /\
  (forall q, QuadTree_contains t q = true -> QuadTree_contains t' q = true) /\
  (forall q, QuadTree_contains t' q = true ->
             QuadTree_contains t q = true \/ In q ps).
Proof.
  induction 1 as [t | t p ps fuel t1 b t2 Ha Hall IH]; intros Hw.
  - tauto.
  - destruct (QuadTree_add_spec fuel t p _ _ Hw Ha) as (Hw1 & Hr1 & _ & _ & Hc1).
    destruct (IH Hw1) as (Hw2 & Hr2 & Hmono & Hback).
    split; [assumption | split; [congruence | split]].
    + intros q Hq. apply Hmono. rewrite Hc1, Hq. apply orb_true_r.
    + intros q Hq. destruct (Hback q Hq) as [H1 | Hin].
      * rewrite Hc1 in H1. apply orb_true_iff in H1.
        destruct H1 as [H1 | H1]; [| auto].
        apply andb_true_iff in H1. destruct H1 as [H1 _].
        apply point_eqb_eq in H1. subst q. right. left. reflexivity.
      * right. right. assumption.
Qed.

Lemma add_all_total ps :
  forall t, tree_wf t -> exists t', add_all t ps t'.
Proof.
  induction ps as [| p ps IH]; intros t Hw.
  - exists t. constructor.
  - destruct (QuadTree_add_total t p Hw) as (fuel & t1 & b & Ha).
    destruct (QuadTree_add_spec fuel t p _ _ Hw Ha) as (Hw1 & _).
    destruct (IH t1 Hw1) as (t2 & Hall).
    exists t2. econstructor; eauto.
Qed.

Lemma add_all_inserted t ps t' :
  add_all t ps t' ->
  tree_wf t ->
  forall q, In q ps -> containsPoint (tregion t) q = true ->
            QuadTree_contains t' q = true.
Proof.
  induction 1 as [t | t p ps fuel t1 b t2 Ha Hall IH]; intros Hw q Hin Hq.
  - destruct Hin.
  - destruct (QuadTree_add_spec fuel t p _ _ Hw Ha) as (Hw1 & Hr1 & _ & _ & Hc1).
    destruct Hin as [-> | Hin].
    + apply (add_all_sound _ _ _ Hall Hw1).
      rewrite Hc1, point_eqb_refl, Hq. reflexivity.
    + apply IH; auto. congruence.
Qed.

(** ** Squares of side [2^k]: complete occupancy collapses to a full node *)

Lemma pow2_S k : 2 ^ Z.of_nat (S k) = 2 * 2 ^ Z.of_nat k.
Proof. rewrite Nat2Z.inj_succ, Z.pow_succ_r; lia. Qed.

Lemma pow2_pos k : 0 < 2 ^ Z.of_nat k.
Proof. apply Z.pow_pos_nonneg; lia. Qed.

Lemma side_subregion r k q :
  side_pow2 r (S k) -> side_pow2 (region_subregion r q) k.
Proof.
  unfold side_pow2. rewrite pow2_S.
  pose proof (pow2_pos k) as Hpos. revert Hpos.
  generalize (2 ^ Z.of_nat k). intros s Hpos [Hx Hy].
  destruct q; split; region_arith.
Qed.

Lemma side_isPoint r k :
  side_pow2 r k -> region_isPoint r = true -> k = O.
Proof.
  unfold side_pow2, region_isPoint.
  rewrite andb_true_iff, !Z.eqb_eq. intros [Hx _] [Hp _].
  destruct k as [| k]; [reflexivity |].
  rewrite pow2_S in Hx. pose proof (pow2_pos k). lia.
Qed.

Lemma side_not_isPoint r k :
  side_pow2 r k -> region_isPoint r = false -> exists k', k = S k'.
Proof.
  unfold side_pow2. intros [Hx Hy] Hp.
  destruct k as [| k]; [| eauto].
  apply isPoint_false in Hp. simpl in Hx, Hy. lia.
Qed.

(** The lower-left corner of a square of positive side lies in it. *)
Lemma side_corner r k :
  side_pow2 r k -> containsPoint r (x_min r, y_min r) = true.
Proof.
  unfold side_pow2. intros [Hx Hy]. pose proof (pow2_pos k).
  apply containsPoint_iff. unfold X, Y. simpl. lia.
Qed.

Lemma compact_wf k n : compact k n -> wf n.
Proof.
  induction 1 as [k n Hs F Hnone | k n Hs F Hcf Hreg Hch IH].
  - constructor; intros q c Hc; rewrite Hnone in Hc; discriminate.
  - constructor; assumption.
Qed.

Lemma compact_fresh r k : side_pow2 r (S k) -> compact (S k) (QuadNode_init r false).
Proof.
  intros Hs. apply compact_mixed; auto.
  - intros [] c H; discriminate.
  - intros [] c H; discriminate.
Qed.

(** A compact node all of whose points are present is a full node. *)
Lemma compact_all_full k n :
  compact k n ->
  (forall q, containsPoint (region n) q = true -> QuadNode_find n q = true) ->
  full n = true /\ forall q, children n q = None.
Proof.
  induction 1 as [k n Hs F Hnone | k n Hs F Hcf Hreg Hch IH]; intros Hall.
  - auto.
  - exfalso.
    assert (Hfull : childrenFull n = true); [| congruence].
    apply childrenFull_iff. intros qd.
    pose proof (side_subregion _ _ qd Hs) as Hsub.
    pose proof (side_corner _ _ Hsub) as Hcorner.
    destruct (subregion_inside _ _ _ Hcorner) as [Hin Hqd].
    pose proof (Hall _ Hin) as Hfind.
    rewrite (find_not_full n _ F) in Hfind.
    unfold quadrant in Hfind. rewrite Hqd in Hfind.
    destruct (children n qd) as [c |] eqn:Ec; [| discriminate].
    exists c. split; [reflexivity |].
    apply (IH qd c Ec). intros q Hq.
    rewrite (Hreg _ _ Ec) in Hq.
    destruct (subregion_inside _ _ _ Hq) as [Hqin Hqq].
    pose proof (Hall _ Hqin) as Hfq.
    rewrite (find_not_full n _ F) in Hfq.
    unfold quadrant in Hfq. rewrite Hqq, Ec in Hfq. exact Hfq.
Qed.

Lemma compact_set_child k n q c' :
  side_pow2 (region n) (S k) ->
  full n = false ->
  (forall q c, children n q = Some c -> region c = subregion n q) ->
  (forall q c, children n q = Some c -> compact k c) ->
  compact k c' ->
  region c' = subregion n q ->
  compact (S k) (merge_if_full (set_children n q (Some c'))).
Proof.
  intros Hs F Hreg Hch Hc' Hr'. unfold merge_if_full.
  destruct (childrenFull _) eqn:Ecf.
  - apply compact_full.
    + simpl. rewrite region_set_children. assumption.
    + reflexivity.
    + intros []; reflexivity.
  - apply compact_mixed; auto.
    + rewrite region_set_children. assumption.
    + rewrite full_set_children. assumption.
    + intros q' c. rewrite children_set. unfold subregion.
      rewrite region_set_children.
      destruct (Quadrant_eqb q q') eqn:E.
      * apply Quadrant_eqb_eq in E. subst q'. intros H. injection H as <-.
        exact Hr'.
      * apply Hreg.
    + intros q' c. rewrite children_set.
      destruct (Quadrant_eqb q q') eqn:E.
      * intros H. injection H as <-. exact Hc'.
      * apply Hch.
Qed.

(** Inserting an absent point keeps a node compact. *)
Lemma QuadNode_add_compact fuel :
  forall k n p n' b,
    compact k n ->
    containsPoint (region n) p = true ->
    QuadNode_find n p = false ->
    QuadNode_add fuel n p = Some (n', b) ->
    compact k n'.
Proof.
  induction fuel as [| fuel IH]; intros k n p n' b Hn Hp Habs Hadd;
    [discriminate |].
  destruct Hn as [k n Hs F Hnone | k n Hs F Hcf Hreg Hch].
  { rewrite find_unfold, F in Habs. discriminate. }
  simpl in Hadd.
  pose proof (quadrant_in_subregion (region n) p Hp) as Hsub.
  pose proof (side_subregion _ _ (region_quadrant (region n) p) Hs) as Hside.
  fold (quadrant n p) in *. fold (subregion n (quadrant n p)) in *.
  rewrite (find_not_full n p F) in Habs.
  destruct (children n (quadrant n p)) as [c |] eqn:Ec.
  - simpl in Habs.
    pose proof (Hch _ _ Ec) as Hc. pose proof (Hreg _ _ Ec) as Hrc.
    destruct (QuadNode_add fuel c p) as [[c' b'] |] eqn:Ea; [| discriminate].
    rewrite <- Hrc in Hsub.
    destruct (QuadNode_add_spec fuel c p _ _ (compact_wf _ _ Hc) Hsub Ea)
      as (-> & _ & Hr' & _).
    injection Hadd as <- <-.
    apply compact_set_child; auto.
    + apply (IH _ _ _ _ _ Hc Hsub Habs Ea).
    + congruence.
  - destruct (isPoint _) eqn:Ept.
    + injection Hadd as <- <-.
      apply compact_set_child; auto.
      pose proof (side_isPoint _ _ Hside Ept) as ->.
      apply compact_full; auto. intros []; reflexivity.
    + destruct (QuadNode_add fuel _ p) as [[c' b'] |] eqn:Ea; [| discriminate].
      injection Hadd as <- <-.
      destruct (side_not_isPoint _ _ Hside Ept) as [k' ->].
      destruct (QuadNode_add_spec fuel _ p _ _ (wf_init _ _) Hsub Ea)
        as (_ & _ & Hr' & _).
      apply compact_set_child; auto.
      apply (IH _ _ _ _ _ (compact_fresh _ _ Hside) Hsub (find_init _ _) Ea).
Qed.

(** ** Point nodes, iteration and removal of absent points *)

Lemma In_range a b x : In x (range a b) <-> a <= x < b.
Proof.
  unfold range. rewrite in_map_iff. split.
  - intros (i & <- & Hi). apply in_seq in Hi. lia.
  - intros H. exists (Z.to_nat (x - a)). split; [lia |].
    apply in_seq. lia.
Qed.

Lemma In_node_points n p :
  In p (node_points n) <->
  (full n = true /\ containsPoint (region n) p = true) \/
  (full n = false /\ isPoint n = true /\ p = (x_min (region n), y_min (region n))).
Proof.
  unfold node_points. destruct (full n).
  - rewrite in_flat_map. split.
    + intros (x & Hx & Hy). apply in_map_iff in Hy. destruct Hy as (y & <- & Hy).
      apply In_range in Hx. apply In_range in Hy.
      left. split; [reflexivity |]. apply containsPoint_iff. unfold X, Y. simpl. lia.
    + intros [[_ H] | [H _]]; [| discriminate].
      apply containsPoint_iff in H. destruct p as [x y]. unfold X, Y in H. simpl in H.
      exists x. split; [apply In_range; lia |].
      apply in_map_iff. exists y. split; [reflexivity | apply In_range; lia].
  - destruct (isPoint n); simpl.
    + split.
      * intros [<- | []]. right. auto.
      * intros [[H _] | (_ & _ & ->)]; [discriminate | left; reflexivity].
    + split; [intros [] |]. intros [[H _] | (_ & H & _)]; discriminate.
Qed.

Lemma subtree_points_unfold n p :
  In p (subtree_points n) <->
  In p (node_points n) \/
  exists q c, children n q = Some c /\ In p (subtree_points c).
Proof.
  unfold subtree_points. destruct n as [r f a b c d]. cbn [preorder flat_map].
  rewrite in_app_iff. cbn [cNE cNW cSW cSE]. rewrite app_nil_r.
  rewrite !flat_map_app, !in_app_iff.
  split.
  - intros [H | [H | [H | [H | H]]]]; [left; exact H | right ..].
    + destruct a as [k |]; [| destruct H]. exists NE, k. auto.
    + destruct b as [k |]; [| destruct H]. exists NW, k. auto.
    + destruct c as [k |]; [| destruct H]. exists SW, k. auto.
    + destruct d as [k |]; [| destruct H]. exists SE, k. auto.
  - intros [H | (q & k & Hk & H)]; [left; exact H | right].
    destruct q; simpl in Hk; subst; auto.
Qed.

Lemma points_full_init r f : points_full (QuadNode_init r f).
Proof. constructor; intros [] c H; discriminate. Qed.

Lemma points_full_children n q c :
  points_full n -> children n q = Some c ->
  points_full c /\ (isPoint c = true -> full c = true).
Proof. intros H Hc. inversion H; subst. eauto. Qed.

Lemma points_full_set_children n q c :
  points_full n ->
  match c with
  | Some k => points_full k /\ (isPoint k = true -> full k = true)
  | None => True
  end ->
  points_full (set_children n q c).
Proof.
  intros Hn Hc. inversion Hn as [n0 Hp Hs]; subst.
  constructor; intros q' k; rewrite children_set;
    destruct (Quadrant_eqb q q'); try (intros ->; apply Hc); auto.
  - apply Hp.
  - apply Hs.
Qed.

Lemma points_full_merge n : points_full n -> points_full (merge_if_full n).
Proof.
  unfold merge_if_full. destruct (childrenFull n); auto.
  intros _. constructor; intros [] c H; discriminate.
Qed.

Lemma full_merge n : full n = true -> full (merge_if_full n) = true.
Proof. unfold merge_if_full. destruct (childrenFull n); auto. Qed.

Lemma QuadNode_add_points_full fuel :
  forall n p n' b,
    wf n ->
    containsPoint (region n) p = true ->
    points_full n ->
    QuadNode_add fuel n p = Some (n', b) ->
    points_full n' /\ (full n = true -> full n' = true).
Proof.
  induction fuel as [| fuel IH]; intros n p n' b Hn Hp Hpf Hadd; [discriminate |].
  pose proof (quadrant_in_subregion (region n) p Hp) as Hsub.
  fold (quadrant n p) in Hsub. fold (subregion n (quadrant n p)) in Hsub.
  rewrite QuadNode_add_S in Hadd.
  assert (Hstep : forall c',
            points_full c' -> (isPoint c' = true -> full c' = true) ->
            points_full (merge_if_full (set_children n (quadrant n p) (Some c'))) /\
            (full n = true ->
             full (merge_if_full (set_children n (quadrant n p) (Some c'))) = true)).
  { intros c' H1 H2. split.
    - apply points_full_merge, points_full_set_children; auto.
    - intros F. apply full_merge. rewrite full_set_children. exact F. }
  destruct (children n (quadrant n p)) as [c |] eqn:Ec.
  - destruct (wf_children _ _ _ Hn Ec) as [Hc Hrc].
    destruct (points_full_children _ _ _ Hpf Ec) as [Hpc Hfc].
    destruct (QuadNode_add fuel c p) as [[c' b'] |] eqn:Ea; [| discriminate].
    rewrite <- Hrc in Hsub.
    destruct (QuadNode_add_spec fuel c p _ _ Hc Hsub Ea) as (-> & _ & Hr' & _).
    destruct (IH _ _ _ _ Hc Hsub Hpc Ea) as [Hpc' Hfc'].
    injection Hadd as <- <-. apply Hstep; auto.
    intros Hpt. apply Hfc', Hfc. unfold isPoint in *. congruence.
  - destruct (isPoint _) eqn:Ept.
    + injection Hadd as <- <-. apply Hstep; auto.
      constructor; intros [] c H; discriminate.
    + destruct (QuadNode_add fuel _ p) as [[c' b'] |] eqn:Ea; [| discriminate].
      destruct (QuadNode_add_spec fuel _ p _ _ (wf_init _ _) Hsub Ea)
        as (_ & _ & Hr' & _).
      destruct (IH _ _ _ _ (wf_init _ _) Hsub (points_full_init _ _) Ea) as [Hpc' _].
      injection Hadd as <- <-. apply Hstep; auto.
      intros Hpt. unfold isPoint in *. rewrite Hr' in Hpt. congruence.
Qed.

Lemma QuadNode_remove_points_full fuel :
  forall n p n' r u,
    wf n ->
    containsPoint (region n) p = true ->
    points_full n ->
    QuadNode_remove fuel n p = Some (n', Returned (r, u)) ->
    match r with
    | Some k => points_full k /\ isPoint k = false
    | None => True
    end.
Proof.
  induction fuel as [| fuel IH]; intros n p n' r u Hn Hp Hpf Hrem; [discriminate |].
  pose proof (quadrant_in_subregion (region n) p Hp) as Hsub.
  fold (quadrant n p) in Hsub. fold (subregion n (quadrant n p)) in Hsub.
  rewrite QuadNode_remove_S in Hrem.
  destruct (isPoint n) eqn:Ept; [injection Hrem as <- <- <-; exact I |].
  set (n1 := if full n then set_full (subdivide n) false else n) in *.
  assert (Hn1 : wf n1 /\ points_full n1 /\ region n1 = region n /\
                forall c, children n1 (quadrant n p) = Some c ->
                          region c = subregion n (quadrant n p)).
  { subst n1. destruct (full n) eqn:F.
    - split; [apply wf_subdivide |]. split; [| split; [reflexivity |]].
      + constructor; intros q c; rewrite children_subdivide; intros H;
          injection H as <-; [intros _; exact F | apply points_full_init].
      + intros c. rewrite children_subdivide. intros H. injection H as <-.
        reflexivity.
    - split; [exact Hn |]. split; [exact Hpf |]. split; [reflexivity |].
      intros c Hc. apply (wf_children _ _ _ Hn Hc). }
  destruct Hn1 as (Hw1 & Hpf1 & Hr1 & Hrc).
  destruct (children n1 (quadrant n p)) as [c |] eqn:Ec; [| discriminate].
  assert (Hq1 : quadrant n1 p = quadrant n p)
    by (unfold quadrant; rewrite Hr1; reflexivity).
  rewrite <- Hq1 in Ec.
  destruct (wf_children _ _ _ Hw1 Ec) as [Hwc _].
  destruct (points_full_children _ _ _ Hpf1 Ec) as [Hpc _].
  rewrite Hq1 in Ec.
  rewrite <- (Hrc c eq_refl) in Hsub.
  destruct (QuadNode_remove fuel c p) as [[c' [[rc uc] | e]] |] eqn:Er;
    try discriminate.
  pose proof (IH _ _ _ _ _ Hwc Hsub Hpc Er) as Hrcs.
  destruct (childrenNull _); injection Hrem as <- <- <-; [exact I |].
  split.
  - apply points_full_set_children; auto.
    destruct rc as [k |]; [| exact I]. destruct Hrcs as [H1 H2].
    split; [exact H1 | congruence].
  - unfold isPoint in *. rewrite region_set_children, Hr1. exact Ept.
Qed.

Lemma isPoint_corner n :
  isPoint n = true ->
  containsPoint (region n) (x_min (region n), y_min (region n)) = true.
Proof.
  unfold isPoint, region_isPoint. rewrite andb_true_iff, !Z.eqb_eq.
  intros [Hx Hy]. apply containsPoint_iff. unfold X, Y. simpl. lia.
Qed.

(** The points yielded below a node are the points of its region found
    below it. *)
Lemma subtree_points_find :
  forall n,
    wf n -> points_full n -> root_sound n ->
    forall p, In p (subtree_points n) <->
              containsPoint (region n) p = true /\ QuadNode_find n p = true.
Proof.
  induction n as [n IH] using QuadNode_induction.
  intros Hn Hpf Hroot p.
  rewrite subtree_points_unfold, In_node_points. split.
  - intros [[[F Hp] | (F & Hpt & ->)] | (q & c & Hc & Hin)].
    + split; [exact Hp |]. rewrite find_unfold, F. reflexivity.
    + split; [apply isPoint_corner, Hpt |].
      apply Hroot; [exact Hpt | apply isPoint_corner, Hpt].
    + destruct (wf_children _ _ _ Hn Hc) as [Hwc Hrc].
      destruct (points_full_children _ _ _ Hpf Hc) as [Hpc Hfc].
      assert (Hrs : root_sound c).
      { intros Hpt q' _. rewrite find_unfold, (Hfc Hpt). reflexivity. }
      apply (IH q c Hc Hwc Hpc Hrs) in Hin. destruct Hin as [Hpc' Hfind].
      rewrite Hrc in Hpc'.
      destruct (subregion_inside _ _ _ Hpc') as [Hp Hq].
      split; [exact Hp |].
      rewrite find_unfold. destruct (full n); [reflexivity |].
      unfold quadrant. rewrite Hq, Hc. exact Hfind.
  - intros [Hp Hfind]. destruct (full n) eqn:F; [left; left; auto |].
    right. rewrite (find_not_full n p F) in Hfind.
    destruct (children n (quadrant n p)) as [c |] eqn:Hc; [| discriminate].
    exists (quadrant n p), c. split; [exact Hc |].
    destruct (wf_children _ _ _ Hn Hc) as [Hwc Hrc].
    destruct (points_full_children _ _ _ Hpf Hc) as [Hpc Hfc].
    assert (Hrs : root_sound c).
    { intros Hpt q' _. rewrite find_unfold, (Hfc Hpt). reflexivity. }
    apply (IH _ c Hc Hwc Hpc Hrs). split; [| exact Hfind].
    rewrite Hrc. apply quadrant_in_subregion, Hp.
Qed.

(** Removing a point that is not below a node raises. *)
Lemma QuadNode_remove_absent fuel :
  forall n p n' o,
    wf n -> points_full n -> root_sound n ->
    containsPoint (region n) p = true ->
    QuadNode_find n p = false ->
    QuadNode_remove fuel n p = Some (n', o) ->
    o = Raised AttributeError.
Proof.
  induction fuel as [| fuel IH]; intros n p n' o Hn Hpf Hroot Hp Habs Hrem;
    [discriminate |].
  rewrite QuadNode_remove_S in Hrem.
  destruct (isPoint n) eqn:Ept.
  { rewrite (Hroot Ept p Hp) in Habs. discriminate. }
  destruct (full n) eqn:F.
  { rewrite find_unfold, F in Habs. discriminate. }
  rewrite (find_not_full n p F) in Habs.
  destruct (children n (quadrant n p)) as [c |] eqn:Ec.
  - destruct (wf_children _ _ _ Hn Ec) as [Hwc Hrc].
    destruct (points_full_children _ _ _ Hpf Ec) as [Hpc Hfc].
    assert (Hrs : root_sound c).
    { intros Hpt q' _. rewrite find_unfold, (Hfc Hpt). reflexivity. }
    pose proof (quadrant_in_subregion (region n) p Hp) as Hsub.
    fold (quadrant n p) in Hsub. fold (subregion n (quadrant n p)) in Hsub.
    rewrite <- Hrc in Hsub.
    destruct (QuadNode_remove fuel c p) as [[c' oc] |] eqn:Er; [| discriminate].
    pose proof (IH _ _ _ _ Hwc Hpc Hrs Hsub Habs Er) as ->.
    injection Hrem as <- <-. reflexivity.
  - injection Hrem as <- <-. reflexivity.
Qed.

Lemma QuadTree_add_points_full fuel t p t' b :
  tree_wf t -> tree_points_full t ->
  QuadTree_add fuel t p = Some (t', b) ->
  tree_points_full t'.
Proof.
  intros Hw Hpf Hadd. unfold QuadTree_add in Hadd.
  destruct (containsPoint (tregion t) p) eqn:Hp; simpl in Hadd;
    [| injection Hadd as <- <-; exact Hpf].
  destruct (root_or_fresh t Hw) as (Hn & Hr & Hf).
  assert (Hpn : points_full match root t with
                            | None => QuadNode_init (tregion t) false
                            | Some n => n
                            end).
  { unfold tree_points_full in Hpf.
    destruct (root t); [apply Hpf | apply points_full_init]. }
  set (n := match root t with
            | None => QuadNode_init (tregion t) false
            | Some n => n
            end) in *.
  destruct (QuadNode_add fuel n p) as [[n' b'] |] eqn:Ea; [| discriminate].
  injection Hadd as <- <-. rewrite <- Hr in Hp.
  destruct (QuadNode_add_spec fuel n p _ _ Hn Hp Ea) as (_ & _ & Hr' & Hfind).
  destruct (QuadNode_add_points_full fuel n p _ _ Hn Hp Hpn Ea) as [Hpn' _].
  unfold tree_points_full. simpl. split; [exact Hpn' |].
  intros Hpt q Hq. unfold isPoint in Hpt. rewrite Hr' in Hpt, Hq.
  rewrite (Hfind q Hq), (isPoint_unique _ _ _ Hpt Hq Hp), point_eqb_refl.
  reflexivity.
Qed.

Lemma QuadTree_remove_points_full fuel t p t' o :
  tree_wf t -> tree_points_full t ->
  QuadTree_remove fuel t p = Some (t', o) ->
  tree_points_full t'.
Proof.
  intros Hw Hpf Hrem.
  destruct (QuadTree_remove_spec fuel t p _ _ Hw Hrem) as (_ & _ & _ & Ho).
  destruct o as [u | e]; [| destruct Ho as [-> _]; exact Hpf].
  unfold QuadTree_remove in Hrem.
  destruct (root t) as [n |] eqn:Eroot; [| injection Hrem as <- <-; exact Hpf].
  destruct (containsPoint (tregion t) p) eqn:Hp; simpl in Hrem;
    [| injection Hrem as <- <-; exact Hpf].
  assert (Hn : wf n /\ region n = tregion t)
    by (unfold tree_wf in Hw; rewrite Eroot in Hw; exact Hw).
  destruct Hn as [Hn Hr]. rewrite <- Hr in Hp.
  assert (Hpn : points_full n)
    by (unfold tree_points_full in Hpf; rewrite Eroot in Hpf; apply Hpf).
  destruct (QuadNode_remove fuel n p) as [[n' [[r u'] | e]] |] eqn:Er;
    try discriminate.
  injection Hrem as <- <-.
  pose proof (QuadNode_remove_points_full fuel n p _ _ _ Hn Hp Hpn Er) as Hk.
  unfold tree_points_full. simpl. destruct r as [k |]; [| exact I].
  destruct Hk as [Hk1 Hk2]. split; [exact Hk1 |].
  intros Hpt. congruence.
Qed.

Lemma history_points_full r ops t : history r ops t -> tree_points_full t.
Proof.
  induction 1 as [| ops t o fuel t' res Hh IH Hrun]; [exact I |].
  destruct (history_sound _ _ _ Hh) as (Hw & _ & _).
  destruct o as [p | p]; simpl in Hrun.
  - destruct (QuadTree_add fuel t p) as [[t1 b] |] eqn:Ea; [| discriminate].
    injection Hrun as <- <-.
    apply (QuadTree_add_points_full fuel t p _ _ Hw IH Ea).
  - apply (QuadTree_remove_points_full fuel t p _ _ Hw IH Hrun).
Qed.

Lemma iter_contains r ops t p :
  history r ops t ->
  In p (QuadTree_iter t) <-> QuadTree_contains t p = true.
Proof.
  intros Hh. destruct (history_sound _ _ _ Hh) as (Hw & _ & _).
  pose proof (history_points_full _ _ _ Hh) as Hpf.
  rewrite contains_unfold. unfold QuadTree_iter, tree_wf, tree_points_full in *.
  destruct (root t) as [n |].
  - destruct Hw as [Hn Hr], Hpf as [Hpn Hrs].
    fold (subtree_points n). rewrite (subtree_points_find n Hn Hpn Hrs p), Hr.
    simpl. rewrite andb_true_iff. reflexivity.
  - simpl. rewrite andb_false_r. split; [intros [] | discriminate].
Qed.

Lemma remove_absent_always_raises r ops t p :
  history r ops t ->
  root t <> None ->
  containsPoint (tregion t) p = true ->
  QuadTree_contains t p = false ->
  (exists fuel0, forall fuel, (fuel0 <= fuel)%nat ->
       QuadTree_remove fuel t p = Some (t, Raised AttributeError)).
Proof.
  intros Hh Hroot Hp Habs.
  destruct (history_sound _ _ _ Hh) as (Hw & _ & _).
  pose proof (history_points_full _ _ _ Hh) as Hpf.
  destruct (QuadTree_remove_enough t p Hw) as (fuel0 & t' & o & Hrem).
  exists fuel0. intros fuel Hle. rewrite (Hrem fuel Hle).
  pose proof (Hrem fuel0 (Nat.le_refl _)) as H0.
  destruct (QuadTree_remove_spec fuel0 t p _ _ Hw H0) as (_ & _ & _ & Ho).
  unfold QuadTree_remove in H0.
  unfold tree_wf, tree_points_full in *. rewrite contains_unfold, Hp in Habs.
  destruct (root t) as [n |] eqn:Eroot; [| congruence].
  rewrite Hp in H0. simpl in H0, Habs.
  destruct Hw as [Hn Hr], Hpf as [Hpn Hrs]. rewrite <- Hr in Hp.
  destruct (QuadNode_remove fuel0 n p) as [[n' on] |] eqn:Er; [| discriminate].
  pose proof (QuadNode_remove_absent fuel0 n p _ _ Hn Hpn Hrs Hp Habs Er) as ->.
  injection H0 as <- <-. destruct Ho as [-> _]. reflexivity.
Qed.

(** ** The compression invariant *)

Lemma compressed_iff n :
  compressed n = true <->
  (full n = true -> forall q, children n q = None) /\
  (forall q c, children n q = Some c -> compressed c = true).
Proof.
  destruct n as [r f a b c d]. cbn [compressed full cNE cNW cSW cSE forallb].
  rewrite !andb_true_iff. split.
  - intros (Hf & Ha & Hb & Hc & Hd & _). split.
    + intros F. cbn [full] in F. subst f. apply childrenNull_iff, Hf.
    + intros q k Hk. destruct q; simpl in Hk; subst; assumption.
  - intros [Hf Hch]. split; [| repeat split].
    + destruct f; [| reflexivity]. apply childrenNull_iff, Hf. reflexivity.
    + destruct a as [k |]; [apply (Hch NE k eq_refl) | reflexivity].
    + destruct b as [k |]; [apply (Hch NW k eq_refl) | reflexivity].
    + destruct c as [k |]; [apply (Hch SW k eq_refl) | reflexivity].
    + destruct d as [k |]; [apply (Hch SE k eq_refl) | reflexivity].
Qed.

Lemma compressed_init r f : compressed (QuadNode_init r f) = true.
Proof. destruct f; reflexivity. Qed.

Lemma compressed_merge n :
  compressed n = true -> compressed (merge_if_full n) = true.
Proof. unfold merge_if_full. destruct (childrenFull n); auto. Qed.

Lemma compressed_set_children n q c :
  full n = false ->
  compressed n = true ->
  match c with Some k => compressed k = true | None => True end ->
  compressed (set_children n q c) = true.
Proof.
  intros F Hn Hc. apply compressed_iff in Hn. destruct Hn as [_ Hch].
  apply compressed_iff. split.
  - rewrite full_set_children, F. discriminate.
  - intros q' k. rewrite children_set.
    destruct (Quadrant_eqb q q'); [intros ->; exact Hc | apply Hch].
Qed.

(** Inserting an absent point keeps the compression invariant. *)
Lemma QuadNode_add_compressed fuel :
  forall n p n' b,
    QuadNode_find n p = false ->
    compressed n = true ->
    QuadNode_add fuel n p = Some (n', b) ->
    compressed n' = true.
Proof.
  induction fuel as [| fuel IH]; intros n p n' b Habs Hn Hadd; [discriminate |].
  rewrite QuadNode_add_S in Hadd.
  assert (F : full n = false).
  { rewrite find_unfold in Habs. destruct (full n); [discriminate | reflexivity]. }
  rewrite (find_not_full n p F) in Habs.
  pose proof (proj2 (proj1 (compressed_iff n) Hn)) as Hch.
  destruct (children n (quadrant n p)) as [c |] eqn:Ec.
  - simpl in Habs.
    destruct (QuadNode_add fuel c p) as [[c' b'] |] eqn:Ea; [| discriminate].
    pose proof (IH _ _ _ _ Habs (Hch _ _ Ec) Ea) as Hc'.
    destruct b'; injection Hadd as <- <-.
    + apply compressed_merge, compressed_set_children; auto.
    + apply compressed_set_children; auto.
  - destruct (isPoint _).
    + injection Hadd as <- <-.
      apply compressed_merge, compressed_set_children; auto.
    + destruct (QuadNode_add fuel _ p) as [[c' b'] |] eqn:Ea; [| discriminate].
      pose proof (IH _ _ _ _ (find_init _ _) (compressed_init _ _) Ea) as Hc'.
      injection Hadd as <- <-.
      apply compressed_merge, compressed_set_children; auto.
Qed.

(** Removal keeps the compression invariant, whatever its outcome. *)
Lemma QuadNode_remove_compressed fuel :
  forall n p n' o,
    compressed n = true ->
    QuadNode_remove fuel n p = Some (n', o) ->
    compressed n' = true /\
    match o with
    | Returned (Some k, _) => compressed k = true
    | _ => True
    end.
Proof.
  induction fuel as [| fuel IH]; intros n p n' o Hn Hrem; [discriminate |].
  rewrite QuadNode_remove_S in Hrem.
  destruct (isPoint n); [injection Hrem as <- <-; auto |].
  set (n1 := if full n then set_full (subdivide n) false else n) in *.
  assert (Hn1 : compressed n1 = true /\ full n1 = false).
  { subst n1. destruct (full n) eqn:F; [| auto].
    split; [| reflexivity]. apply compressed_iff. split; [discriminate |].
    intros q c. rewrite children_subdivide. intros H. injection H as <-.
    apply compressed_init. }
  destruct Hn1 as [Hc1 F1].
  pose proof (proj2 (proj1 (compressed_iff n1) Hc1)) as Hch.
  destruct (children n1 (quadrant n p)) as [c |] eqn:Ec;
    [| injection Hrem as <- <-; auto].
  destruct (QuadNode_remove fuel c p) as [[c' oc] |] eqn:Er; [| discriminate].
  destruct (IH _ _ _ _ (Hch _ _ Ec) Er) as [Hc' Hoc].
  destruct oc as [[rc uc] | e].
  - assert (H2 : compressed (set_children n1 (quadrant n p) rc) = true).
    { apply compressed_set_children; auto. }
    destruct (childrenNull _); injection Hrem as <- <-; auto.
  - injection Hrem as <- <-. split; [| exact I].
    apply compressed_set_children; auto.
Qed.

Lemma history_compressed r ops t :
  history r ops t -> no_reinsert r ops -> tree_compressed t = true.
Proof.
  induction 1 as [| ops t o fuel t' res Hh IH Hrun]; intros Hno; [reflexivity |].
  destruct (history_sound _ _ _ Hh) as (Hw & Hr & Hc).
  destruct o as [p | p]; simpl in Hrun, Hno.
  - destruct Hno as [Hp Hno]. specialize (IH Hno).
    unfold QuadTree_add in Hrun.
    destruct (containsPoint (tregion t) p) eqn:Hin; simpl in Hrun;
      [| injection Hrun as <- <-; exact IH].
    rewrite <- Hc, contains_unfold, Hin in Hp. simpl in Hp.
    destruct (root_or_fresh t Hw) as (_ & _ & Hf).
    assert (Hcn : compressed match root t with
                             | None => QuadNode_init (tregion t) false
                             | Some n => n
                             end = true).
    { unfold tree_compressed in IH. destruct (root t); [exact IH | reflexivity]. }
    set (n := match root t with
              | None => QuadNode_init (tregion t) false
              | Some n => n
              end) in *.
    destruct (QuadNode_add fuel n p) as [[n' b] |] eqn:Ea; [| discriminate].
    injection Hrun as <- <-. unfold tree_compressed. simpl.
    rewrite <- Hf in Hp.
    apply (QuadNode_add_compressed fuel n p _ _ Hp Hcn Ea).
  - specialize (IH Hno). unfold QuadTree_remove in Hrun.
    unfold tree_compressed in *.
    destruct (root t) as [n |] eqn:Eroot;
      [| injection Hrun as <- <-; rewrite Eroot; reflexivity].
    destruct (negb _); [injection Hrun as <- <-; rewrite Eroot; exact IH |].
    destruct (QuadNode_remove fuel n p) as [[n' on] |] eqn:Er; [| discriminate].
    destruct (QuadNode_remove_compressed fuel n p _ _ IH Er) as [Hn' Ho].
    destruct on as [[rn un] | e]; injection Hrun as <- <-; simpl.
    + destruct rn; [exact Ho | reflexivity].
    + exact Hn'.
Qed.

(* ================================================================== *)
(** * Main results *)

(** ** Quadrants and sub-regions *)

(** C8.  For a node and a point [p] of its region: [quadrant] puts [p] on
    the east side exactly when [p.x >= origin.x] and on the north side
    exactly when [p.y >= origin.y] (ties go east and north); the
    sub-region of that quadrant contains [p]; the four sub-regions
    partition the region (a point lies in the region exactly when one
    sub-region holds it, and no two hold the same point); and the origin
    is a corner of each of the four. *)
Theorem quadrant_subregion_partition (self : QuadNode) (p : point) :
  containsPoint (region self) p = true ->
  (east (quadrant self p) = true <-> X p >= X (origin self)) /\
  (north (quadrant self p) = true <-> Y p >= Y (origin self)) /\
  containsPoint (subregion self (quadrant self p)) p = true /\
  (forall pt, containsPoint (region self) pt = true <->
              exists q, containsPoint (subregion self q) pt = true) /\
  (forall pt q1 q2, containsPoint (subregion self q1) pt = true ->
                    containsPoint (subregion self q2) pt = true ->
                    q1 = q2) /\
  (x_min (subregion self NE), y_min (subregion self NE)) = origin self /\
  (x_max (subregion self NW), y_min (subregion self NW)) = origin self /\
  (x_max (subregion self SW), y_max (subregion self SW)) = origin self /\
  (x_min (subregion self SE), y_max (subregion self SE)) = origin self.
Proof.
  intros Hp. unfold quadrant, subregion, origin.
  split; [apply quadrant_east |].
  split; [apply quadrant_north |].
  split; [apply quadrant_in_subregion, Hp |].
  split; [| split].
  - intros pt. split.
    + intros Hpt. exists (region_quadrant (region self) pt).
      apply quadrant_in_subregion, Hpt.
    + intros [q Hq]. apply (subregion_inside _ _ _ Hq).
  - intros pt q1 q2 H1 H2.
    destruct (subregion_inside _ _ _ H1) as [_ <-].
    destruct (subregion_inside _ _ _ H2) as [_ <-].
    reflexivity.
  - unfold region_subregion, X, Y.
    destruct (region_origin (region self)) as [ox oy].
    repeat split.
Qed.

Lemma quadrant_subregion_partition_witness :
  containsPoint (region (QuadNode_init (mkRegion 0 0 8 8) false)) (4, 4) = true /\
  (east (quadrant (QuadNode_init (mkRegion 0 0 8 8) false) (4, 4)) = true <->
   X (4, 4) >= X (origin (QuadNode_init (mkRegion 0 0 8 8) false))).
Proof.
  split.
  - reflexivity.
  - exact (proj1 (quadrant_subregion_partition
                    (QuadNode_init (mkRegion 0 0 8 8) false) (4, 4) eq_refl)).
Defined.

(** ** The canonical region *)

Lemma not_pow2_14 k : 2 ^ Z.of_nat k <> 14.
Proof.
  destruct k as [| [| [| [| k]]]]; try (simpl; lia).
  rewrite !pow2_S. pose proof (pow2_pos k). lia.
Qed.

(** C3, as stated, fails: the canonical region of the bounds
    [(3, 3, 10, 10)] is not at once square, of power-of-two size and
    enclosing; its side is 14. *)
Lemma canonical_3_3_10_10_not_pow2_sized :
  ~ (square (tregion (QuadTree_init (mkRegion 3 3 10 10))) /\
     pow2_sized (tregion (QuadTree_init (mkRegion 3 3 10 10))) /\
     encloses (tregion (QuadTree_init (mkRegion 3 3 10 10)))
              (mkRegion 3 3 10 10)).
Proof.
  intros (_ & [k [Hx _]] & _).
  change (16 - 2 = 2 ^ Z.of_nat k) in Hx.
  apply (not_pow2_14 k). lia.
Qed.

(** C3, amended.  Constructing a tree from the bounds [(3, 3, 10, 10)]
    yields the canonical region [(2, 2, 16, 16)]: it is square, each of its
    bounds is a power of two, and it encloses the rectangle
    [(3,3)-(10,10)]; its side is 14. *)
Theorem canonical_3_3_10_10 :
  let c := tregion (QuadTree_init (mkRegion 3 3 10 10)) in
  c = mkRegion 2 2 16 16 /\
  square c /\
  pow2 (x_min c) /\ pow2 (y_min c) /\ pow2 (x_max c) /\ pow2 (y_max c) /\
  encloses c (mkRegion 3 3 10 10) /\
  x_max c - x_min c = 14.
Proof.
  cbv zeta.
  change (tregion (QuadTree_init (mkRegion 3 3 10 10)))
    with (mkRegion 2 2 16 16).
  unfold square, pow2, encloses. simpl.
  repeat split; try lia.
  - exists 1. split; [lia | reflexivity].
  - exists 1. split; [lia | reflexivity].
  - exists 4. split; [lia | reflexivity].
  - exists 4. split; [lia | reflexivity].
Qed.

(** ** The constructor copies the caller's region *)

Lemma read_write_same h l r :
  (l < length h)%nat -> Store.read (Store.write h l r) l = Some r.
Proof.
  revert l. induction h as [| x h IH]; intros [| l] Hl; simpl in *;
    try lia; [reflexivity |].
  apply IH. lia.
Qed.

Lemma read_write_other h l l' r :
  l' <> l -> Store.read (Store.write h l r) l' = Store.read h l'.
Proof.
  revert l l'. induction h as [| x h IH]; intros [| l] [| l'] Hne; simpl;
    try reflexivity; try congruence.
  apply IH. congruence.
Qed.

Lemma read_bound h l r : Store.read h l = Some r -> (l < length h)%nat.
Proof.
  intros H. apply nth_error_Some. unfold Store.read in H. congruence.
Qed.

Lemma read_setattr_same h l r a v :
  Store.read h l = Some r ->
  Store.read (Store.setattr h l a v) l = Some (Store.update r a v).
Proof.
  intros H. unfold Store.setattr. rewrite H.
  apply read_write_same. eapply read_bound, H.
Qed.

Lemma read_setattr_other h l l' a v :
  l' <> l -> Store.read (Store.setattr h l a v) l' = Store.read h l'.
Proof.
  intros Hne. unfold Store.setattr.
  destruct (Store.read h l); [apply read_write_other, Hne | reflexivity].
Qed.

(** C10.  [QuadTree(region)] copies the caller's region object before it
    rewrites the bounds: when the constructor returns, the object the
    caller passed still holds its four original bounds (as does every
    other object that existed before), while the tree's own region is a
    different object that holds the canonical bounds. *)
Theorem init_copies_region (h : Store.store) (l : Store.loc) (r : Region) :
  Store.read h l = Some r ->
  exists h' self,
    Store.QuadTree_new h l = Some (h', self) /\
    Store.read h' l = Some r /\
    Store.obj_region self <> l /\
    Store.read h' (Store.obj_region self) = Some (canonical r) /\
    forall l', (l' < length h)%nat -> Store.read h' l' = Store.read h l'.
Proof.
  intros Hr. pose proof (read_bound _ _ _ Hr) as Hl.
  unfold Store.QuadTree_new, Store.Region_copy. rewrite Hr.
  assert (Hnew : Store.read (h ++ [r]) (length h) = Some r).
  { unfold Store.read. rewrite nth_error_app2, Nat.sub_diag; [reflexivity | lia]. }
  assert (Hold : forall l', (l' < length h)%nat ->
                            Store.read (h ++ [r]) l' = Store.read h l').
  { intros l' Hl'. unfold Store.read. apply nth_error_app1, Hl'. }
  rewrite Hnew.
  eexists. eexists. split; [reflexivity |].
  cbn [Store.obj_region].
  assert (Hframe : forall l', (l' < length h)%nat ->
            Store.read
              (Store.setattr
                 (Store.setattr
                    (Store.setattr
                       (Store.setattr (h ++ [r]) (length h) Store.A_x_min
                          (Z.min (smaller2k (x_min r)) (smaller2k (y_min r))))
                       (length h) Store.A_y_min
                       (Z.min (smaller2k (x_min r)) (smaller2k (y_min r))))
                    (length h) Store.A_x_max
                    (Z.max (larger2k (x_max r)) (larger2k (y_max r))))
                 (length h) Store.A_y_max
                 (Z.max (larger2k (x_max r)) (larger2k (y_max r)))) l' =
            Store.read h l').
  { intros l' Hl'. rewrite !read_setattr_other by lia. apply Hold, Hl'. }
  split; [rewrite Hframe by exact Hl; exact Hr |].
  split; [lia |].
  split; [| exact Hframe].
  pose proof (read_setattr_same _ _ _ Store.A_x_min
                (Z.min (smaller2k (x_min r)) (smaller2k (y_min r))) Hnew) as H1.
  pose proof (read_setattr_same _ _ _ Store.A_y_min
                (Z.min (smaller2k (x_min r)) (smaller2k (y_min r))) H1) as H2.
  pose proof (read_setattr_same _ _ _ Store.A_x_max
                (Z.max (larger2k (x_max r)) (larger2k (y_max r))) H2) as H3.
  pose proof (read_setattr_same _ _ _ Store.A_y_max
                (Z.max (larger2k (x_max r)) (larger2k (y_max r))) H3) as H4.
  exact H4.
Qed.

Lemma init_copies_region_witness :
  Store.read [mkRegion 3 3 10 10] O = Some (mkRegion 3 3 10 10) /\
  exists h' self,
    Store.QuadTree_new [mkRegion 3 3 10 10] O = Some (h', self) /\
    Store.read h' O = Some (mkRegion 3 3 10 10) /\
    Store.obj_region self <> O /\
    Store.read h' (Store.obj_region self) = Some (canonical (mkRegion 3 3 10 10)) /\
    forall l', (l' < length [mkRegion 3 3 10 10])%nat ->
               Store.read h' l' = Store.read [mkRegion 3 3 10 10] l'.
Proof.
  split.
  - reflexivity.
  - exact (init_copies_region [mkRegion 3 3 10 10] O (mkRegion 3 3 10 10) eq_refl).
Defined.

(** ** Insertion, membership and removal along a history *)

(** The two example trees are reached by one and by two insertions. *)
Lemma history_tree_one : history r22 [Add (0, 0)] tree_one.
Proof.
  apply history_step with (t := QuadTree_init r22) (fuel := 1%nat)
                          (res := Returned true).
  - apply history_init.
  - reflexivity.
Qed.

Lemma history_tree_dup : history r22 [Add (0, 0); Add (0, 0)] tree_dup.
Proof.
  apply history_step with (t := tree_one) (fuel := 2%nat)
                          (res := Returned true).
  - apply history_tree_one.
  - reflexivity.
Qed.

(** C9.  In every tree reached by a sequence of [add] and [remove] calls,
    [QuadTree.add(p)] of a point of the canonical region returns (with
    every large enough recursion budget), and the value it returns is
    [True], whether or not [p] is already present. *)
Theorem add_returns_true (r : Region) (ops : list op) (t : QuadTree) (p : point) :
  history r ops t ->
  containsPoint (tregion t) p = true ->
  (exists fuel0 t',
      forall fuel, (fuel0 <= fuel)%nat ->
                   QuadTree_add fuel t p = Some (t', true)) /\
  (forall fuel t' b, QuadTree_add fuel t p = Some (t', b) -> b = true).
Proof.
  intros Hh Hp. destruct (history_sound _ _ _ Hh) as (Hw & _ & _).
  assert (Hret : forall fuel t' b,
            QuadTree_add fuel t p = Some (t', b) -> b = true).
  { intros fuel t' b Ha.
    destruct (QuadTree_add_spec fuel t p _ _ Hw Ha) as (_ & _ & -> & _).
    exact Hp. }
  split; [| exact Hret].
  destruct (QuadTree_add_enough t p Hw) as (fuel0 & t' & b & Ha).
  exists fuel0, t'. intros fuel Hle.
  rewrite (Ha fuel Hle). rewrite (Hret _ _ _ (Ha fuel Hle)). reflexivity.
Qed.

Lemma add_returns_true_witness :
  history r22 [Add (0, 0)] tree_one /\
  containsPoint (tregion tree_one) (0, 0) = true /\
  QuadTree_contains tree_one (0, 0) = true /\
  exists fuel0 t',
    forall fuel, (fuel0 <= fuel)%nat ->
                 QuadTree_add fuel tree_one (0, 0) = Some (t', true).
Proof.
  split; [apply history_tree_one |].
  split; [reflexivity |].
  split; [reflexivity |].
  exact (proj1 (add_returns_true r22 [Add (0, 0)] tree_one (0, 0)
                  history_tree_one eq_refl)).
Defined.

(** C5.  A point [p] of the canonical region inserted into a new tree:
    the call returns [True], [p] is contained right afterwards, and it
    stays contained after any further insertions (which all return). *)
Theorem contains_after_add (r : Region) (p : point) :
  containsPoint (canonical r) p = true ->
  exists fuel0 t1,
    (forall fuel, (fuel0 <= fuel)%nat ->
                  QuadTree_add fuel (QuadTree_init r) p = Some (t1, true)) /\
    QuadTree_contains t1 p = true /\
    forall qs,
      (exists t2, add_all t1 qs t2) /\
      (forall t2, add_all t1 qs t2 -> QuadTree_contains t2 p = true).
Proof.
  intros Hp.
  pose proof (tree_wf_init r) as Hw0.
  destruct (QuadTree_add_enough (QuadTree_init r) p Hw0) as (fuel0 & t1 & b & Ha).
  destruct (QuadTree_add_spec fuel0 _ p _ _ Hw0 (Ha fuel0 (Nat.le_refl _)))
    as (Hw1 & _ & Hb & _ & Hc).
  change (tregion (QuadTree_init r)) with (canonical r) in Hb, Hc.
  rewrite Hp in Hb. subst b.
  assert (Hc1 : QuadTree_contains t1 p = true).
  { rewrite Hc, point_eqb_refl, Hp. reflexivity. }
  exists fuel0, t1. split; [exact Ha |]. split; [exact Hc1 |].
  intros qs. split.
  - apply add_all_total, Hw1.
  - intros t2 Hall. apply (add_all_sound _ _ _ Hall Hw1), Hc1.
Qed.

Lemma contains_after_add_witness :
  containsPoint (canonical r22) (1, 0) = true /\
  exists fuel0 t1,
    (forall fuel, (fuel0 <= fuel)%nat ->
                  QuadTree_add fuel (QuadTree_init r22) (1, 0) = Some (t1, true)) /\
    QuadTree_contains t1 (1, 0) = true /\
    forall qs,
      (exists t2, add_all t1 qs t2) /\
      (forall t2, add_all t1 qs t2 -> QuadTree_contains t2 (1, 0) = true).
Proof.
  split; [reflexivity |].
  exact (contains_after_add r22 (1, 0) eq_refl).
Defined.

(** C6.  When a point [p] that has been inserted (and not removed since)
    is removed, the call returns [True]; afterwards [p] is not contained,
    and every other point that was inserted and not removed is still
    contained. *)
Theorem remove_correct (r : Region) (ops : list op) (t : QuadTree) (p : point) :
  history r ops t ->
  stored r ops p = true ->
  exists fuel0 t',
    (forall fuel, (fuel0 <= fuel)%nat ->
                  QuadTree_remove fuel t p = Some (t', Returned true)) /\
    QuadTree_contains t' p = false /\
    forall q, q <> p -> stored r ops q = true ->
              QuadTree_contains t' q = true.
Proof.
  intros Hh Hp. destruct (history_sound _ _ _ Hh) as (Hw & _ & Hc).
  destruct (QuadTree_remove_enough t p Hw) as (fuel0 & t' & o & Hrem).
  destruct (QuadTree_remove_spec fuel0 t p _ _ Hw (Hrem fuel0 (Nat.le_refl _)))
    as (_ & _ & Hc' & Ho).
  assert (Eo : o = Returned true).
  { destruct o as [u | e].
    - destruct Ho as [-> | [_ Habs]]; [reflexivity |].
      rewrite Hc in Habs. congruence.
    - destruct Ho as [_ Habs]. rewrite Hc in Habs. congruence. }
  subst o. exists fuel0, t'. split; [exact Hrem |]. split.
  - rewrite Hc', point_eqb_refl. apply andb_false_r.
  - intros q Hne Hq. rewrite Hc', Hc, Hq.
    apply point_eqb_neq in Hne. rewrite Hne. reflexivity.
Qed.

Lemma remove_correct_witness :
  history r22 [Add (0, 0)] tree_one /\
  stored r22 [Add (0, 0)] (0, 0) = true /\
  exists fuel0 t',
    (forall fuel, (fuel0 <= fuel)%nat ->
                  QuadTree_remove fuel tree_one (0, 0) = Some (t', Returned true)) /\
    QuadTree_contains t' (0, 0) = false /\
    forall q, q <> (0, 0) -> stored r22 [Add (0, 0)] q = true ->
              QuadTree_contains t' q = true.
Proof.
  split; [apply history_tree_one |].
  split; [reflexivity |].
  exact (remove_correct r22 [Add (0, 0)] tree_one (0, 0)
           history_tree_one eq_refl).
Defined.

(** ** Inserting a point that is already present *)

(** C1, at the failing input.  In the tree over [(0, 0, 2, 2)], reached by
    [add((0,0))] followed by a second [add((0,0))], both calls returning
    [True], the node of the point [(0,0)] is full and has a child: the
    compression invariant does not hold in this reachable state.  (It
    holds in every tree reached without inserting a point that is stored
    at that time, [history_compressed].) *)
Theorem duplicate_add_breaks_compression :
  history r22 [Add (0, 0); Add (0, 0)] tree_dup /\
  QuadTree_add 2 tree_one (0, 0) = Some (tree_dup, true) /\
  tree_compressed tree_one = true /\
  tree_compressed tree_dup = false /\
  exists n c, In n (match root tree_dup with
                    | Some k => preorder k
                    | None => []
                    end) /\
              full n = true /\ children n NE = Some c.
Proof.
  split; [apply history_tree_dup |].
  split; [reflexivity |].
  split; [reflexivity |].
  split; [reflexivity |].
  exists (mkNode (mkRegion 0 0 1 1) true
            (Some (leaf (mkRegion 0 0 1 1))) None None None),
         (leaf (mkRegion 0 0 1 1)).
  split; [| split; reflexivity].
  simpl. right. left. reflexivity.
Qed.

(** C4, at the failing input.  Iterating the tree reached by inserting
    [(0,0)] twice yields the point [(0,0)] twice, although the set of
    points inserted and not removed is the single point [(0,0)].  (As a
    set the iteration is right in every reachable tree, [iter_contains];
    it is the absence of duplicates that fails.) *)
Theorem duplicate_add_iterates_twice :
  history r22 [Add (0, 0); Add (0, 0)] tree_dup /\
  (forall p, stored r22 [Add (0, 0); Add (0, 0)] p = true <-> p = (0, 0)) /\
  QuadTree_iter tree_dup = [(0, 0); (0, 0)] /\
  ~ NoDup (QuadTree_iter tree_dup).
Proof.
  split; [apply history_tree_dup |].
  split.
  { intros p. simpl. rewrite orb_false_r, orb_diag, andb_true_r.
    apply point_eqb_eq. }
  split; [reflexivity |].
  change (QuadTree_iter tree_dup) with [(0, 0); (0, 0)].
  intros H. inversion H as [| x l Hnotin _]; subst.
  apply Hnotin. left. reflexivity.
Qed.

(** The same happens without a repeated insertion over a region of a
    single point: the root is then a point node that is not full, and
    both the root and its full child yield the point. *)
Lemma single_point_tree_iterates_twice :
  exists t,
    QuadTree_add 1 (QuadTree_init (mkRegion 0 0 1 1)) (0, 0) = Some (t, true) /\
    QuadTree_iter t = [(0, 0); (0, 0)].
Proof. eexists. split; reflexivity. Qed.

(** ** Removing a point that is not stored *)

(** C2, at the failing input.  In the tree over [(0, 0, 2, 2)] that holds
    only [(0,0)], the point [(1,1)] lies in the region and is not
    contained; [remove((1,1))] raises [AttributeError] instead of returning
    [False] (the tree itself is left as it was).  The same happens in
    every reachable tree with a root, for every absent point of the
    region: [remove_absent_always_raises]. *)
Theorem remove_absent_raises :
  history r22 [Add (0, 0)] tree_one /\
  containsPoint (tregion tree_one) (1, 1) = true /\
  QuadTree_contains tree_one (1, 1) = false /\
  forall fuel,
    QuadTree_remove (S fuel) tree_one (1, 1) =
    Some (tree_one, Raised AttributeError).
Proof.
  split; [apply history_tree_one |].
  split; [reflexivity |].
  split; [reflexivity |].
  intros fuel. reflexivity.
Qed.

(** ** Inserting every point of the region *)

Lemma QuadTree_add_compact fuel k t p t' b :
  tree_wf t ->
  side_pow2 (tregion t) (S k) ->
  tree_compact (S k) t ->
  QuadTree_contains t p = false ->
  QuadTree_add fuel t p = Some (t', b) ->
  tree_compact (S k) t'.
Proof.
  intros Hw Hs Hc Habs Hadd. unfold QuadTree_add in Hadd.
  destruct (containsPoint (tregion t) p) eqn:Hp; simpl in Hadd.
  - destruct (root_or_fresh t Hw) as (Hn & Hr & Hf).
    rewrite contains_unfold, Hp in Habs. simpl in Habs.
    assert (Hcn : compact (S k)
                    match root t with
                    | None => QuadNode_init (tregion t) false
                    | Some n => n
                    end).
    { unfold tree_compact in Hc. destruct (root t); [exact Hc |].
      apply compact_fresh, Hs. }
    set (n := match root t with
              | None => QuadNode_init (tregion t) false
              | Some n => n
              end) in *.
    destruct (QuadNode_add fuel n p) as [[n' b'] |] eqn:Ea; [| discriminate].
    injection Hadd as <- <-. unfold tree_compact. simpl.
    rewrite <- Hr in Hp. rewrite <- Hf in Habs.
    apply (QuadNode_add_compact fuel _ _ _ _ _ Hcn Hp Habs Ea).
  - injection Hadd as <- <-. exact Hc.
Qed.

Lemma add_all_compact k t ps t' :
  add_all t ps t' ->
  tree_wf t ->
  side_pow2 (tregion t) (S k) ->
  tree_compact (S k) t ->
  NoDup ps ->
  (forall p, In p ps -> QuadTree_contains t p = false) ->
  tree_compact (S k) t'.
Proof.
  induction 1 as [t | t p ps fuel t1 b t2 Ha Hall IH];
    intros Hw Hs Hc Hnd Habs; [exact Hc |].
  destruct (QuadTree_add_spec fuel t p _ _ Hw Ha) as (Hw1 & Hr1 & _ & _ & Hc1).
  inversion Hnd as [| x l Hnotin Hnd']; subst.
  apply IH; auto.
  - rewrite Hr1. exact Hs.
  - apply (QuadTree_add_compact fuel _ _ _ _ _ Hw Hs Hc (Habs p (or_introl eq_refl)) Ha).
  - intros q Hq. rewrite Hc1, (Habs q (or_intror Hq)).
    assert (Hne : point_eqb q p = false).
    { apply point_eqb_neq. intros ->. contradiction. }
    rewrite Hne. reflexivity.
Qed.

Ltac in_list := repeat (first [left; reflexivity | right]).

Lemma only_point_0_0 (p : point) :
  In p [(0, 0)] <-> containsPoint (canonical (mkRegion 0 0 1 1)) p = true.
Proof.
  destruct p as [x y]. rewrite containsPoint_iff. unfold X, Y.
  change (canonical (mkRegion 0 0 1 1)) with (mkRegion 0 0 1 1).
  cbn [fst snd x_min y_min x_max y_max].
  split.
  - intros [H | []]. inversion H. lia.
  - intros [Hx Hy]. left. f_equal; lia.
Qed.

Lemma nine_points (p : point) :
  In p [(1, 1); (1, 2); (1, 3); (2, 1); (2, 2); (2, 3);
        (3, 1); (3, 2); (3, 3)] <->
  containsPoint (canonical (mkRegion 1 1 3 3)) p = true.
Proof.
  destruct p as [x y]. rewrite containsPoint_iff. unfold X, Y.
  change (canonical (mkRegion 1 1 3 3)) with (mkRegion 1 1 4 4).
  cbn [fst snd x_min y_min x_max y_max].
  split.
  - intros H. simpl in H.
    repeat (destruct H as [H | H]; [inversion H; lia |]). destruct H.
  - intros [Hx Hy].
    assert (Ex : x = 1 \/ x = 2 \/ x = 3) by lia.
    assert (Ey : y = 1 \/ y = 2 \/ y = 3) by lia.
    destruct Ex as [-> | [-> | ->]], Ey as [-> | [-> | ->]]; in_list.
Qed.

Lemma four_points (p : point) :
  In p [(1, 1); (0, 0); (1, 0); (0, 1)] <->
  containsPoint (canonical r22) p = true.
Proof.
  destruct p as [x y]. rewrite containsPoint_iff. unfold X, Y.
  change (canonical r22) with (mkRegion 0 0 2 2).
  cbn [fst snd x_min y_min x_max y_max].
  split.
  - intros H. simpl in H.
    repeat (destruct H as [H | H]; [inversion H; lia |]). destruct H.
  - intros [Hx Hy].
    assert (Ex : x = 0 \/ x = 1) by lia.
    assert (Ey : y = 0 \/ y = 1) by lia.
    destruct Ex as [-> | ->], Ey as [-> | ->]; in_list.
Qed.

Ltac nodup_points :=
  repeat (constructor;
          [let Hin := fresh "Hin" in
           simpl; intros Hin;
           repeat (destruct Hin as [Hin | Hin]; [discriminate Hin |]);
           destruct Hin |]);
  constructor.

(** C7, as stated, fails.  Over the canonical region [(0, 0, 1, 1)], whose
    only point is [(0,0)], and over the canonical region [(1, 1, 4, 4)] of
    the bounds [(1, 1, 3, 3)], whose side is 3, inserting every point
    exactly once leaves a root that is not full. *)
Lemma insert_all_root_not_full :
  ~ (forall ps t,
        NoDup ps ->
        (forall p, In p ps <->
                   containsPoint (canonical (mkRegion 0 0 1 1)) p = true) ->
        add_all (QuadTree_init (mkRegion 0 0 1 1)) ps t ->
        exists n, root t = Some n /\ full n = true /\
                  forall q, children n q = None) /\
  ~ (forall ps t,
        NoDup ps ->
        (forall p, In p ps <->
                   containsPoint (canonical (mkRegion 1 1 3 3)) p = true) ->
        add_all (QuadTree_init (mkRegion 1 1 3 3)) ps t ->
        exists n, root t = Some n /\ full n = true /\
                  forall q, children n q = None).
Proof.
  split.
  - intros H.
    assert (Hrun : exists t n,
               add_all (QuadTree_init (mkRegion 0 0 1 1)) [(0, 0)] t /\
               root t = Some n /\ full n = false).
    { eexists. eexists. split; [| split].
      - eapply add_all_cons with (fuel := 1%nat); [reflexivity |].
        apply add_all_nil.
      - reflexivity.
      - reflexivity. }
    destruct Hrun as (t & n & Hall & Hroot & Hfull).
    assert (Hnd : NoDup [(0, 0)]) by nodup_points.
    destruct (H [(0, 0)] t Hnd only_point_0_0 Hall) as (n' & Hroot' & Hfull' & _).
    congruence.
  - intros H.
    assert (Hrun : exists t n,
               add_all (QuadTree_init (mkRegion 1 1 3 3))
                 [(1, 1); (1, 2); (1, 3); (2, 1); (2, 2); (2, 3);
                  (3, 1); (3, 2); (3, 3)] t /\
               root t = Some n /\ full n = false).
    { eexists. eexists. split; [| split].
      - repeat (eapply add_all_cons with (fuel := 3%nat);
                [vm_compute; reflexivity |]).
        apply add_all_nil.
      - reflexivity.
      - reflexivity. }
    destruct Hrun as (t & n & Hall & Hroot & Hfull).
    assert (Hnd : NoDup [(1, 1); (1, 2); (1, 3); (2, 1); (2, 2); (2, 3);
                         (3, 1); (3, 2); (3, 3)]) by nodup_points.
    destruct (H _ t Hnd nine_points Hall) as (n' & Hroot' & Hfull' & _).
    congruence.
Qed.

(** C7, amended.  When the canonical region is a square whose side is a
    power of two and at least 2, inserting every integer point of the
    region, each exactly once, in any order, into a new tree returns for
    every call and yields a tree whose root is full and has no children. *)
Theorem insert_all_full (r : Region) (k : nat) (ps : list point) :
  side_pow2 (canonical r) (S k) ->
  NoDup ps ->
  (forall p, In p ps <-> containsPoint (canonical r) p = true) ->
  (exists t, add_all (QuadTree_init r) ps t) /\
  (forall t, add_all (QuadTree_init r) ps t ->
             exists n, root t = Some n /\ full n = true /\
                       forall q, children n q = None).
Proof.
  intros Hs Hnd Hps.
  pose proof (tree_wf_init r) as Hw0.
  split; [apply add_all_total, Hw0 |].
  intros t Hall.
  destruct (add_all_sound _ _ _ Hall Hw0) as (Hw & Hr & _ & _).
  assert (Hc : tree_compact (S k) t).
  { apply (add_all_compact k _ _ _ Hall Hw0 Hs I Hnd).
    intros p _. rewrite contains_unfold. apply andb_false_r. }
  assert (Hin : forall q, containsPoint (canonical r) q = true ->
                          QuadTree_contains t q = true).
  { intros q Hq. apply (add_all_inserted _ _ _ Hall Hw0 q); [| exact Hq].
    apply Hps, Hq. }
  pose proof (Hin _ (side_corner _ _ Hs)) as Hcorner.
  rewrite contains_unfold in Hcorner.
  unfold tree_compact in Hc. unfold tree_wf in Hw.
  destruct (root t) as [n |] eqn:Eroot;
    [| rewrite andb_false_r in Hcorner; discriminate].
  exists n. split; [reflexivity |].
  destruct Hw as [_ Hrn].
  apply (compact_all_full _ _ Hc).
  intros q Hq. rewrite Hrn, Hr in Hq.
  pose proof (Hin q Hq) as Hcq.
  rewrite contains_unfold, Eroot in Hcq.
  apply andb_true_iff in Hcq. apply Hcq.
Qed.

Lemma insert_all_full_witness :
  side_pow2 (canonical r22) 1 /\
  NoDup [(1, 1); (0, 0); (1, 0); (0, 1)] /\
  (forall p, In p [(1, 1); (0, 0); (1, 0); (0, 1)] <->
             containsPoint (canonical r22) p = true) /\
  exists t, add_all (QuadTree_init r22) [(1, 1); (0, 0); (1, 0); (0, 1)] t.
Proof.
  assert (Hs : side_pow2 (canonical r22) 1) by (split; reflexivity).
  assert (Hnd : NoDup [(1, 1); (0, 0); (1, 0); (0, 1)]) by nodup_points.
  split; [exact Hs |]. split; [exact Hnd |]. split; [exact four_points |].
  exact (proj1 (insert_all_full r22 O [(1, 1); (0, 0); (1, 0); (0, 1)]
                  Hs Hnd four_points)).
Defined.

(* ================================================================== *)
(** * Further properties of the operations *)

(** ** Rounding to powers of two *)

Lemma smaller2k_pos n :
  0 < n -> smaller2k n = 2 ^ Z.log2 n /\ 2 ^ Z.log2 n <= n < 2 * 2 ^ Z.log2 n.
Proof.
  intros Hn. unfold smaller2k.
  destruct (Z.eqb_spec n 0); [lia |]. destruct (Z.ltb_spec n 0); [lia |].
  split; [reflexivity |].
  pose proof (Z.log2_spec n Hn) as Hspec.
  rewrite Z.pow_succ_r in Hspec by apply Z.log2_nonneg. lia.
Qed.

Lemma larger2k_pos n :
  0 < n ->
  larger2k n = 2 ^ Z.log2_up n /\ n <= 2 ^ Z.log2_up n < 2 * n.
Proof.
  intros Hn. unfold larger2k.
  destruct (Z.eqb_spec n 0); [lia |]. destruct (Z.ltb_spec n 0); [lia |].
  split; [reflexivity |].
  destruct (Z.eq_dec n 1) as [-> | Hne]; [simpl; lia |].
  assert (H1 : 1 < n) by lia.
  pose proof (Z.log2_up_spec n H1) as Hspec.
  pose proof (Z.log2_up_pos n H1) as Hpos.
  assert (E : 2 ^ Z.log2_up n = 2 * 2 ^ Z.pred (Z.log2_up n)).
  { rewrite <- Z.pow_succ_r by lia. f_equal. lia. }
  lia.
Qed.

Lemma smaller2k_neg n : n < 0 -> smaller2k n = - larger2k (- n).
Proof.
  intros Hn. unfold smaller2k, larger2k.
  destruct (Z.eqb_spec n 0); [lia |]. destruct (Z.ltb_spec n 0); [| lia].
  destruct (Z.eqb_spec (- n) 0); [lia |]. destruct (Z.ltb_spec (- n) 0); [lia |].
  reflexivity.
Qed.

Lemma larger2k_neg n : n < 0 -> larger2k n = - smaller2k (- n).
Proof.
  intros Hn. unfold smaller2k, larger2k.
  destruct (Z.eqb_spec n 0); [lia |]. destruct (Z.ltb_spec n 0); [| lia].
  destruct (Z.eqb_spec (- n) 0); [lia |]. destruct (Z.ltb_spec (- n) 0); [lia |].
  reflexivity.
Qed.

Lemma rounding_bounds n : smaller2k n <= n <= larger2k n.
Proof.
  destruct (Z.lt_trichotomy n 0) as [Hn | [-> | Hn]].
  - rewrite (smaller2k_neg n Hn), (larger2k_neg n Hn).
    destruct (smaller2k_pos (- n)) as [-> ?]; [lia |].
    destruct (larger2k_pos (- n)) as [-> ?]; [lia |].
    revert H H0. generalize (2 ^ Z.log2 (- n)) (2 ^ Z.log2_up (- n)). lia.
  - change (0 <= 0 <= 0). lia.
  - destruct (smaller2k_pos n Hn) as [-> ?].
    destruct (larger2k_pos n Hn) as [-> ?]. lia.
Qed.

Lemma smaller2k_fixed n : smaller2k (smaller2k n) = smaller2k n.
Proof.
  destruct (Z.lt_trichotomy n 0) as [Hn | [-> | Hn]].
  - rewrite (smaller2k_neg n Hn).
    destruct (larger2k_pos (- n)) as [E ?]; [lia |]. rewrite E.
    pose proof (Z.log2_up_nonneg (- n)) as Hk.
    assert (Hp : 0 < 2 ^ Z.log2_up (- n)) by (apply Z.pow_pos_nonneg; lia).
    rewrite smaller2k_neg by lia. rewrite Z.opp_involutive.
    destruct (larger2k_pos (2 ^ Z.log2_up (- n)) Hp) as [-> _].
    rewrite Z.log2_up_pow2 by exact Hk. reflexivity.
  - reflexivity.
  - destruct (smaller2k_pos n Hn) as [E ?]. rewrite E.
    pose proof (Z.log2_nonneg n) as Hk.
    assert (Hp : 0 < 2 ^ Z.log2 n) by (apply Z.pow_pos_nonneg; lia).
    destruct (smaller2k_pos (2 ^ Z.log2 n) Hp) as [-> _].
    rewrite Z.log2_pow2 by exact Hk. reflexivity.
Qed.

Lemma larger2k_fixed n : larger2k (larger2k n) = larger2k n.
Proof.
  destruct (Z.lt_trichotomy n 0) as [Hn | [-> | Hn]].
  - rewrite (larger2k_neg n Hn).
    destruct (smaller2k_pos (- n)) as [E ?]; [lia |]. rewrite E.
    pose proof (Z.log2_nonneg (- n)) as Hk.
    assert (Hp : 0 < 2 ^ Z.log2 (- n)) by (apply Z.pow_pos_nonneg; lia).
    rewrite larger2k_neg by lia. rewrite Z.opp_involutive.
    destruct (smaller2k_pos (2 ^ Z.log2 (- n)) Hp) as [-> _].
    rewrite Z.log2_pow2 by exact Hk. reflexivity.
  - reflexivity.
  - destruct (larger2k_pos n Hn) as [E ?]. rewrite E.
    pose proof (Z.log2_up_nonneg n) as Hk.
    assert (Hp : 0 < 2 ^ Z.log2_up n) by (apply Z.pow_pos_nonneg; lia).
    destruct (larger2k_pos (2 ^ Z.log2_up n) Hp) as [-> _].
    rewrite Z.log2_up_pow2 by exact Hk. reflexivity.
Qed.

(** ** Canonical nodes *)

Lemma canon_compact k n : canon k n -> compact k n.
Proof.
  induction 1 as [k n Hs F Hnone | k n Hs F Hcf Hcn Hreg Hch IH].
  - apply compact_full; assumption.
  - apply compact_mixed; assumption.
Qed.

Lemma childrenNull_false n :
  childrenNull n = false -> exists q c, children n q = Some c.
Proof.
  unfold childrenNull, is_none. intros H.
  destruct (cNE n) as [c |] eqn:E1; [exists NE, c; exact E1 |].
  destruct (cNW n) as [c |] eqn:E2; [exists NW, c; exact E2 |].
  destruct (cSW n) as [c |] eqn:E3; [exists SW, c; exact E3 |].
  destruct (cSE n) as [c |] eqn:E4; [exists SE, c; exact E4 |].
  discriminate.
Qed.

Lemma childrenNull_set_some n q c : childrenNull (set_children n q (Some c)) = false.
Proof.
  destruct (childrenNull _) eqn:E; [| reflexivity].
  rewrite childrenNull_iff in E. specialize (E q).
  rewrite children_set in E.
  assert (Quadrant_eqb q q = true) by (apply Quadrant_eqb_eq; reflexivity).
  rewrite H in E. discriminate.
Qed.

(** A canonical node holds a point. *)
Lemma canon_inhabited k n :
  canon k n ->
  exists p, containsPoint (region n) p = true /\ QuadNode_find n p = true.
Proof.
  induction 1 as [k n Hs F Hnone | k n Hs F Hcf Hcn Hreg Hch IH].
  - exists (x_min (region n), y_min (region n)).
    split; [apply (side_corner _ _ Hs) |].
    rewrite find_unfold, F. reflexivity.
  - destruct (childrenNull_false n Hcn) as (q & c & Hc).
    destruct (IH q c Hc) as (p & Hp & Hf).
    rewrite (Hreg q c Hc) in Hp.
    destruct (subregion_inside _ _ _ Hp) as [Hin Hq].
    exists p. split; [exact Hin |].
    rewrite (find_not_full n p F). unfold quadrant. rewrite Hq, Hc. exact Hf.
Qed.

Lemma node_eq n m :
  region n = region m ->
  full n = full m ->
  (forall q, children n q = children m q) ->
  n = m.
Proof.
  intros Hr Hf Hc. destruct n, m. simpl in *.
  pose proof (Hc NE). pose proof (Hc NW). pose proof (Hc SW). pose proof (Hc SE).
  simpl in *. congruence.
Qed.

(** Two canonical nodes over the same region that hold the same points
    are the same node. *)
Lemma canon_unique k n :
  canon k n ->
  forall m,
    canon k m ->
    region n = region m ->
    (forall p, containsPoint (region n) p = true ->
               QuadNode_find n p = QuadNode_find m p) ->
    n = m.
Proof.
  induction 1 as [k n Hs F Hnone | k n Hs F Hcf Hcn Hreg Hch IH];
    intros m Hm Hr Hfind.
  - assert (Hall : forall p, containsPoint (region m) p = true ->
                             QuadNode_find m p = true).
    { intros p Hp. rewrite <- Hr in Hp. rewrite <- (Hfind p Hp).
      rewrite find_unfold, F. reflexivity. }
    destruct (compact_all_full _ _ (canon_compact _ _ Hm) Hall) as [Fm Hm0].
    apply node_eq; [exact Hr | congruence |].
    intros q. rewrite Hnone, Hm0. reflexivity.
  - inversion Hm as [k0 m0 Hsm Fm Hnonem | k0 m0 Hsm Fm Hcfm Hcnm Hregm Hchm];
      subst.
    + exfalso.
      assert (Hall : forall p, containsPoint (region n) p = true ->
                               QuadNode_find n p = true).
      { intros p Hp. rewrite (Hfind p Hp), find_unfold, Fm. reflexivity. }
      assert (Hcompact : compact (S k) n)
        by (apply canon_compact, canon_mixed; assumption).
      destruct (compact_all_full _ _ Hcompact Hall) as [F' _]. congruence.
    + apply node_eq; [exact Hr | congruence |].
      intros q.
      assert (Hsub : forall c p, children n q = Some c ->
                containsPoint (region c) p = true ->
                containsPoint (region n) p = true /\
                QuadNode_find n p = QuadNode_find c p).
      { intros c p Hc Hp. rewrite (Hreg q c Hc) in Hp.
        destruct (subregion_inside _ _ _ Hp) as [Hin Hq]. split; [exact Hin |].
        rewrite (find_not_full n p F). unfold quadrant. rewrite Hq, Hc.
        reflexivity. }
      assert (Hsubm : forall d p, children m q = Some d ->
                containsPoint (region d) p = true ->
                containsPoint (region m) p = true /\
                QuadNode_find m p = QuadNode_find d p).
      { intros d p Hd Hp. rewrite (Hregm q d Hd) in Hp.
        destruct (subregion_inside _ _ _ Hp) as [Hin Hq]. split; [exact Hin |].
        rewrite (find_not_full m p Fm). unfold quadrant. rewrite Hq, Hd.
        reflexivity. }
      destruct (children n q) as [c |] eqn:Ec, (children m q) as [d |] eqn:Ed.
      * f_equal. apply (IH q c Ec d (Hchm q d Ed)).
        -- rewrite (Hreg q c Ec), (Hregm q d Ed).
           unfold subregion. rewrite Hr. reflexivity.
        -- intros p Hp.
           destruct (Hsub c p eq_refl Hp) as [Hin Hfn].
           assert (Hpd : containsPoint (region d) p = true).
           { rewrite (Hregm q d Ed). unfold subregion. rewrite <- Hr.
             fold (subregion n q). rewrite <- (Hreg q c Ec). exact Hp. }
           destruct (Hsubm d p eq_refl Hpd) as [_ Hfm].
           rewrite <- Hfn, <- Hfm. apply Hfind, Hin.
      * exfalso.
        destruct (canon_inhabited _ _ (Hch q c Ec)) as (p & Hp & Hf).
        destruct (Hsub c p eq_refl Hp) as [Hin Hfn].
        rewrite (Hfind p Hin) in Hfn. rewrite Hf in Hfn.
        rewrite (find_not_full m p Fm) in Hfn.
        rewrite (Hreg q c Ec) in Hp.
        destruct (subregion_inside _ _ _ Hp) as [_ Hq].
        unfold quadrant in Hfn. rewrite <- Hr, Hq, Ed in Hfn. discriminate.
      * exfalso.
        destruct (canon_inhabited _ _ (Hchm q d Ed)) as (p & Hp & Hf).
        destruct (Hsubm d p eq_refl Hp) as [Hin Hfm].
        rewrite <- Hr in Hin.
        rewrite <- (Hfind p Hin) in Hfm. rewrite Hf in Hfm.
        rewrite (find_not_full n p F) in Hfm.
        rewrite (Hregm q d Ed) in Hp.
        destruct (subregion_inside _ _ _ Hp) as [_ Hq].
        unfold quadrant in Hfm. rewrite Hr, Hq, Ec in Hfm. discriminate.
      * reflexivity.
Qed.

Lemma side_isPoint_0 r : side_pow2 r 0 -> region_isPoint r = true.
Proof.
  unfold side_pow2, region_isPoint. simpl. intros [Hx Hy].
  rewrite andb_true_iff, !Z.eqb_eq. lia.
Qed.

Lemma canon_set_child k n q c' :
  side_pow2 (region n) (S k) ->
  full n = false ->
  (forall q c, children n q = Some c -> region c = subregion n q) ->
  (forall q c, children n q = Some c -> canon k c) ->
  canon k c' ->
  region c' = subregion n q ->
  canon (S k) (merge_if_full (set_children n q (Some c'))).
Proof.
  intros Hs F Hreg Hch Hc' Hr'. unfold merge_if_full.
  destruct (childrenFull _) eqn:Ecf.
  - apply canon_full.
    + simpl. rewrite region_set_children. assumption.
    + reflexivity.
    + intros []; reflexivity.
  - apply canon_mixed; auto.
    + rewrite region_set_children. assumption.
    + rewrite full_set_children. assumption.
    + apply childrenNull_set_some.
    + intros q' c. rewrite children_set. unfold subregion.
      rewrite region_set_children.
      destruct (Quadrant_eqb q q') eqn:E.
      * apply Quadrant_eqb_eq in E. subst q'. intros H. injection H as <-.
        exact Hr'.
      * apply Hreg.
    + intros q' c. rewrite children_set.
      destruct (Quadrant_eqb q q') eqn:E.
      * intros H. injection H as <-. exact Hc'.
      * apply Hch.
Qed.

(** Inserting an absent point into a canonical node, or into a fresh node
    over a square of side at least 2, gives a canonical node. *)
Lemma QuadNode_add_canon fuel :
  forall k n p n' b,
    canon k n \/
    (exists k', k = S k' /\ side_pow2 (region n) k /\
                n = QuadNode_init (region n) false) ->
    containsPoint (region n) p = true ->
    QuadNode_find n p = false ->
    QuadNode_add fuel n p = Some (n', b) ->
    canon k n'.
Proof.
  induction fuel as [| fuel IH]; intros k n p n' b Hn Hp Habs Hadd;
    [discriminate |].
  assert (Hn' : exists k', k = S k' /\ side_pow2 (region n) (S k') /\
                  full n = false /\
                  (forall q c, children n q = Some c -> region c = subregion n q) /\
                  (forall q c, children n q = Some c -> canon k' c)).
  { destruct Hn as [Hn | (k' & -> & Hs & Hn)].
    - destruct Hn as [k n Hs F Hnone | k n Hs F Hcf Hcn Hreg Hch].
      + rewrite find_unfold, F in Habs. discriminate.
      + exists k. auto.
    - exists k'. split; [reflexivity |]. split; [exact Hs |].
      rewrite Hn. split; [reflexivity |].
      split; intros [] c H; discriminate. }
  clear Hn. destruct Hn' as (k' & -> & Hs & F & Hreg & Hch).
  rewrite QuadNode_add_S in Hadd.
  pose proof (quadrant_in_subregion (region n) p Hp) as Hsub.
  pose proof (side_subregion _ _ (region_quadrant (region n) p) Hs) as Hside.
  fold (quadrant n p) in *. fold (subregion n (quadrant n p)) in *.
  rewrite (find_not_full n p F) in Habs.
  destruct (children n (quadrant n p)) as [c |] eqn:Ec.
  - simpl in Habs.
    pose proof (Hch _ _ Ec) as Hc. pose proof (Hreg _ _ Ec) as Hrc.
    destruct (QuadNode_add fuel c p) as [[c' b'] |] eqn:Ea; [| discriminate].
    rewrite <- Hrc in Hsub.
    destruct (QuadNode_add_spec fuel c p _ _
                (compact_wf _ _ (canon_compact _ _ Hc)) Hsub Ea)
      as (-> & _ & Hr' & _).
    injection Hadd as <- <-.
    apply canon_set_child; auto.
    + apply (IH _ _ _ _ _ (or_introl Hc) Hsub Habs Ea).
    + congruence.
  - destruct (isPoint _) eqn:Ept.
    + injection Hadd as <- <-.
      apply canon_set_child; auto.
      pose proof (side_isPoint _ _ Hside Ept) as ->.
      apply canon_full; auto. intros []; reflexivity.
    + destruct (QuadNode_add fuel _ p) as [[c' b'] |] eqn:Ea; [| discriminate].
      injection Hadd as <- <-.
      destruct (side_not_isPoint _ _ Hside Ept) as [k'' ->].
      destruct (QuadNode_add_spec fuel _ p _ _ (wf_init _ _) Hsub Ea)
        as (_ & _ & Hr' & _).
      apply canon_set_child; auto.
      apply (IH (S k'') (QuadNode_init (subregion n (quadrant n p)) false)
                p c' b'); [| exact Hsub | apply find_init | exact Ea].
      right. exists k''. split; [reflexivity |]. split; [exact Hside |].
      reflexivity.
Qed.

(** Removing a point from a canonical node returns a canonical node or
    [None]. *)
Lemma QuadNode_remove_canon fuel :
  forall k n p n' r u,
    canon k n ->
    containsPoint (region n) p = true ->
    QuadNode_remove fuel n p = Some (n', Returned (r, u)) ->
    match r with
    | Some m => canon k m
    | None => True
    end.
Proof.
  induction fuel as [| fuel IH]; intros k n p n' r u Hn Hp Hrem; [discriminate |].
  pose proof (compact_wf _ _ (canon_compact _ _ Hn)) as Hw.
  pose proof (QuadNode_remove_spec (S fuel) n p _ _ Hw Hp Hrem)
    as (_ & Hreg_r & Hfind_r).
  rewrite QuadNode_remove_S in Hrem.
  destruct (isPoint n) eqn:Ept; [injection Hrem as <- <- <-; exact I |].
  pose proof (quadrant_in_subregion (region n) p Hp) as Hsub.
  fold (quadrant n p) in *. fold (subregion n (quadrant n p)) in *.
  set (n1 := if full n then set_full (subdivide n) false else n) in *.
  assert (Hn1 : exists k',
             k = S k' /\ side_pow2 (region n1) (S k') /\ full n1 = false /\
             region n1 = region n /\
             (forall q c, children n1 q = Some c -> region c = subregion n1 q) /\
             (forall q c, children n1 q = Some c -> canon k' c)).
  { subst n1. destruct Hn as [k n Hs F Hnone | k n Hs F Hcf Hcn Hreg Hch].
    - destruct (side_not_isPoint _ _ Hs Ept) as [k' ->]. exists k'.
      rewrite F. split; [reflexivity |]. split; [exact Hs |].
      split; [reflexivity |]. split; [reflexivity |]. split.
      + intros q c. rewrite children_subdivide. intros H. injection H as <-.
        reflexivity.
      + intros q c. rewrite children_subdivide, F. intros H. injection H as <-.
        apply canon_full; [| reflexivity | intros []; reflexivity].
        apply side_subregion, Hs.
    - exists k. rewrite F. auto 7. }
  destruct Hn1 as (k' & -> & Hs1 & F1 & Hr1 & Hreg1 & Hch1).
  destruct (children n1 (quadrant n p)) as [c |] eqn:Ec; [| discriminate].
  destruct (QuadNode_remove fuel c p) as [[c' [[rc uc] | e]] |] eqn:Er;
    try discriminate.
  assert (Hpc : containsPoint (region c) p = true).
  { rewrite (Hreg1 _ _ Ec). unfold subregion. rewrite Hr1. exact Hsub. }
  pose proof (IH _ _ _ _ _ _ (Hch1 _ _ Ec) Hpc Er) as Hrc.
  pose proof (QuadNode_remove_spec fuel c p _ _
                (compact_wf _ _ (canon_compact _ _ (Hch1 _ _ Ec))) Hpc Er)
    as (_ & Hrc_reg & Hrc_find).
  destruct (childrenNull (set_children n1 (quadrant n p) rc)) eqn:En;
    injection Hrem as <- <- <-; [exact I |].
  apply canon_mixed; auto.
  - rewrite region_set_children. exact Hs1.
  - rewrite full_set_children. exact F1.
  - destruct (childrenFull _) eqn:Ecf; [| reflexivity]. exfalso.
    rewrite childrenFull_iff in Ecf.
    destruct (Ecf (quadrant n p)) as (m & Hm & Fm).
    rewrite children_set in Hm.
    assert (E : Quadrant_eqb (quadrant n p) (quadrant n p) = true)
      by (apply Quadrant_eqb_eq; reflexivity).
    rewrite E in Hm. subst rc.
    specialize (Hrc_find p Hpc). simpl in Hrc_find.
    rewrite point_eqb_refl, andb_false_r, find_unfold, Fm in Hrc_find.
    discriminate.
  - intros q' m. rewrite children_set. unfold subregion.
    rewrite region_set_children.
    destruct (Quadrant_eqb (quadrant n p) q') eqn:E.
    + apply Quadrant_eqb_eq in E. subst q'. intros ->.
      destruct Hrc_reg as [_ Hrm]. rewrite Hrm. apply (Hreg1 _ _ Ec).
    + apply Hreg1.
  - intros q' m. rewrite children_set.
    destruct (Quadrant_eqb (quadrant n p) q') eqn:E.
    + intros ->. exact Hrc.
    + apply Hch1.
Qed.

Lemma history_canon r k ops t :
  side_pow2 (canonical r) (S k) ->
  history r ops t ->
  no_reinsert r ops ->
  tree_canon (S k) t.
Proof.
  intros Hs. induction 1 as [| ops t o fuel t' res Hh IH Hrun]; intros Hno;
    [exact I |].
  destruct (history_sound _ _ _ Hh) as (Hw & Hr & Hc).
  destruct o as [p | p]; simpl in Hrun, Hno.
  - destruct Hno as [Hp Hno]. specialize (IH Hno).
    unfold QuadTree_add in Hrun.
    destruct (containsPoint (tregion t) p) eqn:Hin; simpl in Hrun;
      [| injection Hrun as <- <-; exact IH].
    rewrite <- Hc, contains_unfold, Hin in Hp. simpl in Hp.
    destruct (root_or_fresh t Hw) as (_ & Hrn & Hf).
    assert (Hcn : canon (S k) match root t with
                              | None => QuadNode_init (tregion t) false
                              | Some n => n
                              end \/
                  exists k', S k = S k' /\
                    side_pow2 (region match root t with
                                      | None => QuadNode_init (tregion t) false
                                      | Some n => n
                                      end) (S k) /\
                    match root t with
                    | None => QuadNode_init (tregion t) false
                    | Some n => n
                    end =
                    QuadNode_init (region match root t with
                                          | None => QuadNode_init (tregion t) false
                                          | Some n => n
                                          end) false).
    { unfold tree_canon in IH. destruct (root t); [left; exact IH |].
      right. exists k. simpl. rewrite Hr. auto. }
    set (n := match root t with
              | None => QuadNode_init (tregion t) false
              | Some n => n
              end) in *.
    destruct (QuadNode_add fuel n p) as [[n' b] |] eqn:Ea; [| discriminate].
    injection Hrun as <- <-. unfold tree_canon. simpl.
    rewrite <- Hrn in Hin. rewrite <- Hf in Hp.
    apply (QuadNode_add_canon fuel _ n p _ _ Hcn Hin Hp Ea).
  - specialize (IH Hno).
    destruct (QuadTree_remove_spec fuel t p _ _ Hw Hrun) as (_ & _ & _ & Ho).
    destruct res as [u | e]; [| destruct Ho as [-> _]; exact IH].
    unfold QuadTree_remove in Hrun. unfold tree_canon, tree_wf in *.
    destruct (root t) as [n |] eqn:Eroot;
      [| injection Hrun as <- <-; rewrite Eroot; exact I].
    destruct (containsPoint (tregion t) p) eqn:Hin; simpl in Hrun;
      [| injection Hrun as <- <-; rewrite Eroot; exact IH].
    destruct Hw as [_ Hrn]. rewrite <- Hrn in Hin.
    destruct (QuadNode_remove fuel n p) as [[n' [[rn un] | e]] |] eqn:Er;
      try discriminate.
    injection Hrun as <- <-. simpl.
    apply (QuadNode_remove_canon fuel _ n p _ _ _ IH Hin Er).
Qed.

Lemma tree_eq t1 t2 : root t1 = root t2 -> tregion t1 = tregion t2 -> t1 = t2.
Proof. destruct t1, t2. simpl. congruence. Qed.

(** The tree is determined by the points it stores. *)
Lemma canonical_form r k ops1 ops2 t1 t2 :
  side_pow2 (canonical r) (S k) ->
  history r ops1 t1 -> no_reinsert r ops1 ->
  history r ops2 t2 -> no_reinsert r ops2 ->
  (forall p, stored r ops1 p = stored r ops2 p) ->
  t1 = t2.
Proof.
  intros Hs H1 N1 H2 N2 Hsame.
  destruct (history_sound _ _ _ H1) as (Hw1 & Hr1 & Hc1).
  destruct (history_sound _ _ _ H2) as (Hw2 & Hr2 & Hc2).
  pose proof (history_canon _ _ _ _ Hs H1 N1) as Hk1.
  pose proof (history_canon _ _ _ _ Hs H2 N2) as Hk2.
  assert (Hc : forall p, QuadTree_contains t1 p = QuadTree_contains t2 p)
    by (intros p; rewrite Hc1, Hc2; apply Hsame).
  apply tree_eq; [| congruence].
  unfold tree_canon, tree_wf in *.
  destruct (root t1) as [n |] eqn:E1, (root t2) as [m |] eqn:E2.
  - destruct Hw1 as [_ Hn], Hw2 as [_ Hm]. f_equal.
    apply (canon_unique _ _ Hk1 m Hk2); [congruence |].
    intros p Hp. specialize (Hc p). rewrite !contains_unfold, E1, E2 in Hc.
    rewrite Hn in Hp. rewrite Hp in Hc. rewrite Hr1, <- Hr2 in Hp.
    rewrite Hp in Hc. exact Hc.
  - exfalso. destruct Hw1 as [_ Hn].
    destruct (canon_inhabited _ _ Hk1) as (p & Hp & Hf).
    specialize (Hc p). rewrite !contains_unfold, E1, E2 in Hc.
    rewrite Hn in Hp. rewrite Hp in Hc. simpl in Hc.
    rewrite Hf, andb_false_r in Hc. discriminate.
  - exfalso. destruct Hw2 as [_ Hm].
    destruct (canon_inhabited _ _ Hk2) as (p & Hp & Hf).
    specialize (Hc p). rewrite !contains_unfold, E1, E2 in Hc.
    rewrite Hm in Hp. rewrite Hp in Hc. simpl in Hc.
    rewrite Hf, andb_false_r in Hc. discriminate.
  - reflexivity.
Qed.

Lemma canon_height k n : canon k n -> (height n <= k)%nat.
Proof.
  induction 1 as [k n Hs F Hnone | k n Hs F Hcf Hcn Hreg Hch IH].
  - rewrite height_unfold. simpl.
    pose proof (Hnone NE) as E1. pose proof (Hnone NW) as E2.
    pose proof (Hnone SW) as E3. pose proof (Hnone SE) as E4.
    simpl in *. rewrite E1, E2, E3, E4. simpl. lia.
  - rewrite height_unfold. simpl.
    assert (H1 : forall q, (match children n q with
                            | Some c => S (height c)
                            | None => O
                            end <= S k)%nat).
    { intros q. destruct (children n q) as [c |] eqn:Ec; [| lia].
      pose proof (IH q c Ec). lia. }
    pose proof (H1 NE). pose proof (H1 NW). pose proof (H1 SW). pose proof (H1 SE).
    simpl in *. lia.
Qed.

(** ** Iteration without duplicates *)

Lemma NoDup_range a b : NoDup (range a b).
Proof.
  unfold range. apply NoDup_map_NoDup_ForallPairs; [| apply seq_NoDup].
  intros i j _ _ H. lia.
Qed.

Lemma NoDup_region_points n : full n = true -> NoDup (node_points n).
Proof.
  unfold node_points. intros ->.
  generalize (range (y_min (region n)) (y_max (region n))) (NoDup_range (y_min (region n)) (y_max (region n))).
  intros ys Hys.
  generalize (range (x_min (region n)) (x_max (region n))) (NoDup_range (x_min (region n)) (x_max (region n))).
  intros xs Hxs. induction Hxs as [| x xs Hx Hxs IH]; simpl; [constructor |].
  apply NoDup_app.
  - apply NoDup_map_NoDup_ForallPairs; [| exact Hys].
    intros y1 y2 _ _ H. congruence.
  - exact IH.
  - intros [x' y'] H1 H2. apply in_map_iff in H1. destruct H1 as (y & E & _).
    apply in_flat_map in H2. destruct H2 as (x2 & Hx2 & H2).
    apply in_map_iff in H2. destruct H2 as (y2 & E2 & _).
    apply Hx. congruence.
Qed.

Lemma subtree_points_app n :
  subtree_points n =
  node_points n ++ slot_points (cNE n) ++ slot_points (cNW n) ++
  slot_points (cSW n) ++ slot_points (cSE n).
Proof.
  unfold subtree_points. destruct n as [r f a b c d].
  cbn [preorder flat_map cNE cNW cSW cSE].
  rewrite !app_nil_r, !flat_map_app.
  destruct a, b, c, d; reflexivity.
Qed.

(** The traversal of a subtree that keeps the compression invariant, and
    whose point nodes are full, yields no point twice. *)
Lemma subtree_points_NoDup :
  forall n,
    wf n -> compressed n = true -> points_full n ->
    (isPoint n = true -> full n = true) ->
    NoDup (subtree_points n).
Proof.
  induction n as [n IH] using QuadNode_induction.
  intros Hn Hc Hpf Hpt.
  pose proof (proj1 (compressed_iff n) Hc) as [Hfull Hch].
  rewrite subtree_points_app.
  destruct (full n) eqn:F.
  - pose proof (Hfull eq_refl NE) as E1. pose proof (Hfull eq_refl NW) as E2.
    pose proof (Hfull eq_refl SW) as E3. pose proof (Hfull eq_refl SE) as E4.
    simpl in E1, E2, E3, E4. rewrite E1, E2, E3, E4. simpl.
    rewrite app_nil_r. apply NoDup_region_points, F.
  - assert (Hnp : node_points n = []).
    { unfold node_points. rewrite F. destruct (isPoint n); [| reflexivity].
      discriminate (Hpt eq_refl). }
    rewrite Hnp. simpl.
    assert (Hslot : forall q,
               NoDup (slot_points (children n q)) /\
               forall p, In p (slot_points (children n q)) ->
                         region_quadrant (region n) p = q).
    { intros q. destruct (children n q) as [c |] eqn:Ec;
        [| split; [constructor | intros p []]].
      destruct (wf_children _ _ _ Hn Ec) as [Hwc Hrc].
      destruct (points_full_children _ _ _ Hpf Ec) as [Hpc Hfc].
      split.
      - apply (IH q c Ec Hwc (Hch q c Ec) Hpc Hfc).
      - intros p Hp. simpl in Hp.
        assert (Hrs : root_sound c).
        { intros Hptc q' _. rewrite find_unfold, (Hfc Hptc). reflexivity. }
        apply (subtree_points_find c Hwc Hpc Hrs) in Hp. destruct Hp as [Hp _].
        rewrite Hrc in Hp. apply (subregion_inside _ _ _ Hp). }
    destruct (Hslot NE) as [N1 Q1], (Hslot NW) as [N2 Q2],
             (Hslot SW) as [N3 Q3], (Hslot SE) as [N4 Q4].
    simpl in N1, N2, N3, N4, Q1, Q2, Q3, Q4.
    repeat apply NoDup_app; auto;
      intros p H1 H2; rewrite ?in_app_iff in H2;
      repeat match goal with
             | H : _ \/ _ |- _ => destruct H
             end;
      repeat match goal with
             | Hq : forall p, In p ?l -> _, Hin : In p ?l |- _ =>
                 apply Hq in Hin
             end;
      congruence.
Qed.

(** ** No empty node is kept *)

Lemma stocked_is_below n : stocked n -> stocked_below n.
Proof. intros H. inversion H; subst. split; assumption. Qed.

Lemma isPoint_side r : region_isPoint r = true -> side_pow2 r 0.
Proof.
  unfold region_isPoint, side_pow2. rewrite andb_true_iff, !Z.eqb_eq.
  simpl. lia.
Qed.

Lemma parent_side r a b c d :
  side_pow2 (region_subregion r NE) a ->
  side_pow2 (region_subregion r NW) b ->
  side_pow2 (region_subregion r SW) c ->
  side_pow2 (region_subregion r SE) d ->
  side_pow2 r (S b).
Proof.
  unfold side_pow2. rewrite pow2_S.
  generalize (2 ^ Z.of_nat a) (2 ^ Z.of_nat b) (2 ^ Z.of_nat c) (2 ^ Z.of_nat d).
  intros A B C D [H1 H2] [H3 H4] [H5 H6] [H7 H8].
  split; region_arith.
Qed.

Lemma stocked_full_leaf r k :
  side_pow2 r k -> stocked (QuadNode_init r true).
Proof.
  intros Hs. constructor.
  - exists (x_min r, y_min r). split; [apply (side_corner _ _ Hs) | reflexivity].
  - intros _. exists k. exact Hs.
  - intros [] c H; discriminate.
Qed.

Lemma stocked_merge n :
  wf n ->
  inhabited n ->
  stocked_below n ->
  stocked (merge_if_full n).
Proof.
  intros Hw Hin [Hside Hch]. unfold merge_if_full.
  destruct (childrenFull n) eqn:Ecf; [| constructor; assumption].
  rewrite childrenFull_iff in Ecf.
  assert (Hs : forall q, exists k, side_pow2 (region_subregion (region n) q) k).
  { intros q. destruct (Ecf q) as (c & Hc & Fc).
    destruct (wf_children _ _ _ Hw Hc) as [_ Hrc].
    destruct (stocked_is_below c (Hch q c Hc)) as [Hsc _].
    destruct (Hsc Fc) as [k Hk]. exists k. rewrite Hrc in Hk. exact Hk. }
  destruct (Hs NE) as [a Ha], (Hs NW) as [b Hb], (Hs SW) as [c Hc],
           (Hs SE) as [d Hd].
  pose proof (parent_side _ _ _ _ _ Ha Hb Hc Hd) as Hp.
  constructor.
  - exists (x_min (region n), y_min (region n)).
    split; [apply (side_corner _ _ Hp) | reflexivity].
  - intros _. exists (S b). exact Hp.
  - intros [] k H; discriminate.
Qed.

(** Insertion leaves no empty node behind. *)
Lemma QuadNode_add_stocked fuel :
  forall n p n' b,
    wf n ->
    containsPoint (region n) p = true ->
    stocked_below n ->
    QuadNode_add fuel n p = Some (n', b) ->
    stocked n'.
Proof.
  induction fuel as [| fuel IH]; intros n p n' b Hn Hp Hbelow Hadd;
    [discriminate |].
  pose proof (quadrant_in_subregion (region n) p Hp) as Hsub.
  fold (quadrant n p) in Hsub. fold (subregion n (quadrant n p)) in Hsub.
  destruct Hbelow as [Hside Hch].
  assert (Hstep : forall c',
            wf c' -> region c' = subregion n (quadrant n p) ->
            stocked c' -> QuadNode_find c' p = true ->
            stocked (merge_if_full (set_children n (quadrant n p) (Some c')))).
  { intros c' Hwc Hrc Hsc Hfc. apply stocked_merge.
    - apply wf_set_children; auto.
    - exists p. rewrite region_set_children. split; [exact Hp |].
      rewrite find_set_children. destruct (full n); [reflexivity |].
      assert (E : Quadrant_eqb (quadrant n p) (quadrant n p) = true)
        by (apply Quadrant_eqb_eq; reflexivity).
      rewrite E. exact Hfc.
    - split.
      + rewrite full_set_children, region_set_children. exact Hside.
      + intros q c. rewrite children_set.
        destruct (Quadrant_eqb (quadrant n p) q);
          [intros H; injection H as <-; exact Hsc | apply Hch]. }
  rewrite QuadNode_add_S in Hadd.
  destruct (children n (quadrant n p)) as [c |] eqn:Ec.
  - destruct (wf_children _ _ _ Hn Ec) as [Hc Hrc].
    destruct (QuadNode_add fuel c p) as [[c' b'] |] eqn:Ea; [| discriminate].
    rewrite <- Hrc in Hsub.
    destruct (QuadNode_add_spec fuel c p _ _ Hc Hsub Ea) as (-> & Hc' & Hr' & Hf').
    pose proof (IH _ _ _ _ Hc Hsub (stocked_is_below _ (Hch _ _ Ec)) Ea) as Hs'.
    injection Hadd as <- <-. apply Hstep; auto; [congruence |].
    rewrite (Hf' p Hsub), point_eqb_refl. reflexivity.
  - destruct (isPoint _) eqn:Ept.
    + injection Hadd as <- <-. apply Hstep; auto.
      * constructor; intros [] c H; discriminate.
      * apply (stocked_full_leaf _ O), isPoint_side, Ept.
    + destruct (QuadNode_add fuel _ p) as [[c' b'] |] eqn:Ea; [| discriminate].
      destruct (QuadNode_add_spec fuel _ p _ _ (wf_init _ _) Hsub Ea)
        as (_ & Hc' & Hr' & Hf').
      assert (Hfresh : stocked_below (QuadNode_init (subregion n (quadrant n p)) false)).
      { split; [discriminate | intros [] c H; discriminate]. }
      pose proof (IH _ _ _ _ (wf_init _ _) Hsub Hfresh Ea) as Hs'.
      injection Hadd as <- <-. apply Hstep; auto.
      rewrite (Hf' p Hsub), point_eqb_refl. reflexivity.
Qed.

(** Removal leaves no empty node behind. *)
Lemma QuadNode_remove_stocked fuel :
  forall n p n' r u,
    wf n ->
    containsPoint (region n) p = true ->
    stocked n ->
    QuadNode_remove fuel n p = Some (n', Returned (r, u)) ->
    match r with
    | Some m => stocked m
    | None => True
    end.
Proof.
  induction fuel as [| fuel IH]; intros n p n' r u Hn Hp Hst Hrem; [discriminate |].
  pose proof (QuadNode_remove_spec (S fuel) n p _ _ Hn Hp Hrem)
    as (_ & Hreg_r & _).
  rewrite QuadNode_remove_S in Hrem.
  destruct (isPoint n) eqn:Ept; [injection Hrem as <- <- <-; exact I |].
  pose proof (quadrant_in_subregion (region n) p Hp) as Hsub.
  fold (quadrant n p) in *. fold (subregion n (quadrant n p)) in *.
  destruct (stocked_is_below n Hst) as [Hside Hch].
  set (n1 := if full n then set_full (subdivide n) false else n) in *.
  assert (Hn1 : wf n1 /\ full n1 = false /\ region n1 = region n /\
                forall q c, children n1 q = Some c -> stocked c).
  { subst n1. destruct (full n) eqn:F.
    - split; [apply wf_subdivide |]. split; [reflexivity |].
      split; [reflexivity |].
      intros q c. rewrite children_subdivide, F. intros H. injection H as <-.
      destruct (Hside eq_refl) as [k Hk].
      destruct (side_not_isPoint _ _ Hk Ept) as [k' ->].
      apply (stocked_full_leaf _ k'), side_subregion, Hk.
    - auto. }
  destruct Hn1 as (Hw1 & F1 & Hr1 & Hch1).
  destruct (children n1 (quadrant n p)) as [c |] eqn:Ec; [| discriminate].
  assert (Hq1 : quadrant n1 p = quadrant n p)
    by (unfold quadrant; rewrite Hr1; reflexivity).
  rewrite <- Hq1 in Ec.
  destruct (wf_children _ _ _ Hw1 Ec) as [Hwc Hrc].
  rewrite Hq1 in Ec, Hrc.
  assert (Hpc : containsPoint (region c) p = true).
  { rewrite Hrc. unfold subregion. rewrite Hr1. exact Hsub. }
  destruct (QuadNode_remove fuel c p) as [[c' [[rc uc] | e]] |] eqn:Er;
    try discriminate.
  pose proof (IH _ _ _ _ _ Hwc Hpc (Hch1 _ _ Ec) Er) as Hrc_st.
  destruct (childrenNull (set_children n1 (quadrant n p) rc)) eqn:En;
    injection Hrem as <- <- <-; [exact I |].
  destruct Hreg_r as [Hw2 Hr2].
  assert (Hch2 : forall q m,
             children (set_children n1 (quadrant n p) rc) q = Some m ->
             stocked m).
  { intros q m. rewrite children_set.
    destruct (Quadrant_eqb (quadrant n p) q); [intros ->; exact Hrc_st | apply Hch1]. }
  constructor.
  - destruct (childrenNull_false _ En) as (q & m & Hm).
    pose proof (Hch2 q m Hm) as Hsm. inversion Hsm as [m0 (p' & Hp' & Hf') _ _]; subst.
    destruct (wf_children _ _ _ Hw2 Hm) as [_ Hrm].
    rewrite Hrm in Hp'. destruct (subregion_inside _ _ _ Hp') as [Hin Hq].
    exists p'. split; [exact Hin |].
    rewrite find_unfold, full_set_children, F1.
    change (quadrant (set_children n1 (quadrant n p) rc) p')
      with (region_quadrant (region (set_children n1 (quadrant n p) rc)) p').
    rewrite Hq, Hm. exact Hf'.
  - rewrite full_set_children, F1. discriminate.
  - exact Hch2.
Qed.

(** ** Visited nodes and example histories *)

Lemma history_stocked r ops t : history r ops t -> tree_stocked t.
Proof.
  induction 1 as [| ops t o fuel t' res Hh IH Hrun]; [exact I |].
  destruct (history_sound _ _ _ Hh) as (Hw & Hr & Hc).
  destruct o as [p | p]; simpl in Hrun.
  - unfold QuadTree_add in Hrun.
    destruct (containsPoint (tregion t) p) eqn:Hin; simpl in Hrun;
      [| injection Hrun as <- <-; exact IH].
    destruct (root_or_fresh t Hw) as (Hn & Hrn & _).
    assert (Hb : stocked_below match root t with
                               | None => QuadNode_init (tregion t) false
                               | Some n => n
                               end).
    { unfold tree_stocked in IH. destruct (root t); [apply stocked_is_below, IH |].
      split; [discriminate | intros [] c H; discriminate]. }
    set (n := match root t with
              | None => QuadNode_init (tregion t) false
              | Some n => n
              end) in *.
    destruct (QuadNode_add fuel n p) as [[n' b] |] eqn:Ea; [| discriminate].
    injection Hrun as <- <-. unfold tree_stocked. simpl.
    rewrite <- Hrn in Hin.
    apply (QuadNode_add_stocked fuel n p _ _ Hn Hin Hb Ea).
  - destruct (QuadTree_remove_spec fuel t p _ _ Hw Hrun) as (_ & _ & _ & Ho).
    destruct res as [u | e]; [| destruct Ho as [-> _]; exact IH].
    unfold QuadTree_remove in Hrun. unfold tree_stocked, tree_wf in *.
    destruct (root t) as [n |] eqn:Eroot;
      [| injection Hrun as <- <-; rewrite Eroot; exact I].
    destruct (containsPoint (tregion t) p) eqn:Hin; simpl in Hrun;
      [| injection Hrun as <- <-; rewrite Eroot; exact IH].
    destruct Hw as [Hn Hrn]. rewrite <- Hrn in Hin.
    destruct (QuadNode_remove fuel n p) as [[n' [[rn un] | e]] |] eqn:Er;
      try discriminate.
    injection Hrun as <- <-. simpl.
    apply (QuadNode_remove_stocked fuel n p _ _ _ Hn Hin IH Er).
Qed.

(** A property that holds of a node when it holds of the node itself and,
    for every child, of the child: it holds of every visited node. *)
Lemma preorder_ind (P : QuadNode -> Prop) (H : QuadNode -> Prop) :
  (forall n, H n -> P n) ->
  (forall n q c, H n -> children n q = Some c -> H c) ->
  forall n, H n -> forall m, In m (preorder n) -> P m.
Proof.
  intros HP Hstep. induction n as [n IH] using QuadNode_induction.
  intros Hn m Hm.
  assert (Hc : forall q k, children n q = Some k -> In m (preorder k) -> P m).
  { intros q k Hk. apply (IH q k Hk), (Hstep n q k Hn Hk). }
  destruct n as [r f a b c d]. cbn [preorder] in Hm.
  destruct Hm as [<- | Hm]; [apply HP, Hn |].
  cbn [flat_map cNE cNW cSW cSE] in Hm. rewrite app_nil_r, !in_app_iff in Hm.
  destruct Hm as [Hm | [Hm | [Hm | Hm]]].
  - destruct a as [k |]; [| destruct Hm]. apply (Hc NE k eq_refl Hm).
  - destruct b as [k |]; [| destruct Hm]. apply (Hc NW k eq_refl Hm).
  - destruct c as [k |]; [| destruct Hm]. apply (Hc SW k eq_refl Hm).
  - destruct d as [k |]; [| destruct Hm]. apply (Hc SE k eq_refl Hm).
Qed.

(** A point found below a node of the tree is found from the root. *)
Lemma find_lifts :
  forall n, wf n ->
  forall m, In m (preorder n) ->
  forall p, containsPoint (region m) p = true -> QuadNode_find m p = true ->
            containsPoint (region n) p = true /\ QuadNode_find n p = true.
Proof.
  induction n as [n IH] using QuadNode_induction.
  intros Hn m Hm p Hp Hf.
  assert (Hc : forall q k, children n q = Some k -> In m (preorder k) ->
               containsPoint (region n) p = true /\ QuadNode_find n p = true).
  { intros q k Hk Hmk. destruct (wf_children _ _ _ Hn Hk) as [Hwk Hrk].
    destruct (IH q k Hk Hwk m Hmk p Hp Hf) as [Hpk Hfk].
    rewrite Hrk in Hpk. destruct (subregion_inside _ _ _ Hpk) as [Hin Hq].
    split; [exact Hin |]. rewrite find_unfold. destruct (full n); [reflexivity |].
    unfold quadrant. rewrite Hq, Hk. exact Hfk. }
  destruct n as [r f a b c d]. cbn [preorder] in Hm.
  destruct Hm as [<- | Hm]; [auto |].
  cbn [flat_map cNE cNW cSW cSE] in Hm. rewrite app_nil_r, !in_app_iff in Hm.
  destruct Hm as [Hm | [Hm | [Hm | Hm]]].
  - destruct a as [k |]; [| destruct Hm]. apply (Hc NE k eq_refl Hm).
  - destruct b as [k |]; [| destruct Hm]. apply (Hc NW k eq_refl Hm).
  - destruct c as [k |]; [| destruct Hm]. apply (Hc SW k eq_refl Hm).
  - destruct d as [k |]; [| destruct Hm]. apply (Hc SE k eq_refl Hm).
Qed.

Lemma compressed_children n q c :
  compressed n = true -> children n q = Some c -> compressed c = true.
Proof. intros H. apply (proj2 (proj1 (compressed_iff n) H)). Qed.

(** In a tree that keeps the compression invariant, membership of a point
    of the region of a visited node is decided at that node. *)
Lemma find_descends :
  forall n, wf n -> compressed n = true ->
  forall m, In m (preorder n) ->
  forall p, containsPoint (region m) p = true ->
            containsPoint (region n) p = true /\
            QuadNode_find n p = QuadNode_find m p.
Proof.
  induction n as [n IH] using QuadNode_induction.
  intros Hn Hcn m Hm p Hp.
  assert (Hc : forall q k, children n q = Some k -> In m (preorder k) ->
               containsPoint (region n) p = true /\
               QuadNode_find n p = QuadNode_find m p).
  { intros q k Hk Hmk. destruct (wf_children _ _ _ Hn Hk) as [Hwk Hrk].
    destruct (IH q k Hk Hwk (compressed_children n q k Hcn Hk) m Hmk p Hp)
      as [Hpk Hfk].
    rewrite Hrk in Hpk. destruct (subregion_inside _ _ _ Hpk) as [Hin Hq].
    split; [exact Hin |].
    assert (F : full n = false).
    { destruct (full n) eqn:F; [| reflexivity].
      pose proof (proj1 (proj1 (compressed_iff n) Hcn) F q) as Hnone.
      congruence. }
    rewrite (find_not_full n p F). unfold quadrant. rewrite Hq, Hk. exact Hfk. }
  destruct n as [r f a b c d]. cbn [preorder] in Hm.
  destruct Hm as [<- | Hm]; [auto |].
  cbn [flat_map cNE cNW cSW cSE] in Hm. rewrite app_nil_r, !in_app_iff in Hm.
  destruct Hm as [Hm | [Hm | [Hm | Hm]]].
  - destruct a as [k |]; [| destruct Hm]. apply (Hc NE k eq_refl Hm).
  - destruct b as [k |]; [| destruct Hm]. apply (Hc NW k eq_refl Hm).
  - destruct c as [k |]; [| destruct Hm]. apply (Hc SW k eq_refl Hm).
  - destruct d as [k |]; [| destruct Hm]. apply (Hc SE k eq_refl Hm).
Qed.

Lemma canon_children k n q c :
  canon k n -> children n q = Some c -> exists k', canon k' c.
Proof.
  intros Hn Hc. destruct Hn as [k n Hs F Hnone | k n Hs F Hcf Hcn Hreg Hch].
  - rewrite Hnone in Hc. discriminate.
  - exists k. apply (Hch q c Hc).
Qed.

Lemma side_r22 : side_pow2 (canonical r22) 1.
Proof. split; reflexivity. Qed.

Lemma no_reinsert_one : no_reinsert r22 [Add (0, 0)].
Proof. split; [reflexivity | exact I]. Qed.

Lemma history_emptied :
  history r22 [Remove (0, 0); Add (0, 0)] (QuadTree_init r22).
Proof.
  apply history_step with (t := tree_one) (fuel := 2%nat)
                          (res := Returned true).
  - apply history_tree_one.
  - reflexivity.
Qed.

(** ** Membership and iteration *)

(** X1.  In every tree reached by [add] and [remove] calls, whatever they
    returned or raised, [pt in tree] is true exactly for the points of the
    canonical region that were inserted and not removed since. *)
Theorem contains_is_stored (r : Region) (ops : list op) (t : QuadTree) (q : point) :
  history r ops t -> QuadTree_contains t q = stored r ops q.
Proof. intros Hh. apply (history_sound _ _ _ Hh). Qed.

Lemma contains_is_stored_witness :
  history r22 [Add (0, 0); Add (0, 0)] tree_dup /\
  QuadTree_contains tree_dup (0, 0) = stored r22 [Add (0, 0); Add (0, 0)] (0, 0).
Proof.
  split; [apply history_tree_dup |].
  exact (contains_is_stored r22 [Add (0, 0); Add (0, 0)] tree_dup (0, 0)
           history_tree_dup).
Defined.

(** X2.  In every reachable tree the tree's region is the canonical one,
    the root (if any) sits on it, and every child of every node sits on
    the sub-region of its slot. *)
Theorem children_on_subregions (r : Region) (ops : list op) (t : QuadTree) :
  history r ops t ->
  tregion t = canonical r /\
  forall n, root t = Some n ->
    region n = canonical r /\
    forall m, In m (preorder n) ->
    forall q c, children m q = Some c -> region c = subregion m q.
Proof.
  intros Hh. destruct (history_sound _ _ _ Hh) as (Hw & Hr & _).
  split; [exact Hr |]. intros n Hn. unfold tree_wf in Hw. rewrite Hn in Hw.
  destruct Hw as [Hwn Hrn]. split; [congruence |].
  intros m Hm q c Hc.
  refine (preorder_ind
            (fun m => forall q c, children m q = Some c -> region c = subregion m q)
            wf _ _ n Hwn m Hm q c Hc).
  - intros k Hk q' c' Hc'. apply (wf_children _ _ _ Hk Hc').
  - intros k q' c' Hk Hc'. apply (wf_children _ _ _ Hk Hc').
Qed.

Lemma children_on_subregions_witness :
  history r22 [Add (0, 0); Add (0, 0)] tree_dup /\
  tregion tree_dup = canonical r22.
Proof.
  split; [apply history_tree_dup |].
  exact (proj1 (children_on_subregions r22 [Add (0, 0); Add (0, 0)] tree_dup
                  history_tree_dup)).
Defined.

(** X3.  Iterating a reachable tree yields exactly the stored points: a
    point is yielded (at least once) if and only if it was inserted, lies
    in the canonical region and was not removed since. *)
Theorem iter_is_stored (r : Region) (ops : list op) (t : QuadTree) (p : point) :
  history r ops t ->
  (In p (QuadTree_iter t) <-> stored r ops p = true).
Proof.
  intros Hh. rewrite (iter_contains r ops t p Hh).
  destruct (history_sound _ _ _ Hh) as (_ & _ & Hc). rewrite Hc. reflexivity.
Qed.

Lemma iter_is_stored_witness :
  history r22 [Add (0, 0); Add (0, 0)] tree_dup /\
  (In (0, 0) (QuadTree_iter tree_dup) <->
   stored r22 [Add (0, 0); Add (0, 0)] (0, 0) = true).
Proof.
  split; [apply history_tree_dup |].
  exact (iter_is_stored r22 [Add (0, 0); Add (0, 0)] tree_dup (0, 0)
           history_tree_dup).
Defined.

(** X4.  When no [add] inserted a point that was stored at that time and
    the canonical region is not a single point, iterating the tree yields
    no point twice. *)
Theorem iter_no_duplicates (r : Region) (ops : list op) (t : QuadTree) :
  history r ops t ->
  no_reinsert r ops ->
  region_isPoint (canonical r) = false ->
  NoDup (QuadTree_iter t).
Proof.
  intros Hh Hno Hpt.
  destruct (history_sound _ _ _ Hh) as (Hw & Hr & _).
  pose proof (history_points_full _ _ _ Hh) as Hpf.
  pose proof (history_compressed _ _ _ Hh Hno) as Hc.
  unfold QuadTree_iter, tree_wf, tree_points_full, tree_compressed in *.
  destruct (root t) as [n |]; [| constructor].
  destruct Hw as [Hn Hrn], Hpf as [Hpn _].
  apply (subtree_points_NoDup n Hn Hc Hpn).
  unfold isPoint. rewrite Hrn, Hr, Hpt. discriminate.
Qed.

Lemma iter_no_duplicates_witness :
  history r22 [Add (0, 0)] tree_one /\
  no_reinsert r22 [Add (0, 0)] /\
  region_isPoint (canonical r22) = false /\
  NoDup (QuadTree_iter tree_one).
Proof.
  assert (Hno : no_reinsert r22 [Add (0, 0)]) by (split; [reflexivity | exact I]).
  split; [apply history_tree_one |]. split; [exact Hno |].
  split; [reflexivity |].
  exact (iter_no_duplicates r22 [Add (0, 0)] tree_one history_tree_one Hno eq_refl).
Defined.

(** ** The compression invariant *)

(** X5.  When no [add] inserted a point that was stored at that time,
    every full node of the tree has all four child slots empty, after
    insertions and after removals alike. *)
Theorem compression_without_reinsert (r : Region) (ops : list op) (t : QuadTree) :
  history r ops t ->
  no_reinsert r ops ->
  forall n, root t = Some n ->
  forall m, In m (preorder n) ->
    full m = true -> forall q, children m q = None.
Proof.
  intros Hh Hno n Hn m Hm.
  pose proof (history_compressed _ _ _ Hh Hno) as Hc.
  unfold tree_compressed in Hc. rewrite Hn in Hc.
  refine (preorder_ind
            (fun m => full m = true -> forall q, children m q = None)
            (fun m => compressed m = true) _ _ n Hc m Hm).
  - intros k Hk. apply (proj1 (proj1 (compressed_iff k) Hk)).
  - intros k q c Hk Hkc. apply (compressed_children k q c Hk Hkc).
Qed.

Lemma compression_without_reinsert_witness :
  history r22 [Add (0, 0)] tree_one /\
  no_reinsert r22 [Add (0, 0)] /\
  forall n, root tree_one = Some n ->
  forall m, In m (preorder n) ->
    full m = true -> forall q, children m q = None.
Proof.
  assert (Hno : no_reinsert r22 [Add (0, 0)]) by (split; [reflexivity | exact I]).
  split; [apply history_tree_one |]. split; [exact Hno |].
  exact (compression_without_reinsert r22 [Add (0, 0)] tree_one
           history_tree_one Hno).
Defined.

(** ** The outcome of a removal *)

(** X6.  What [QuadTree.remove(p)] does in a reachable tree: it returns
    [True] when [p] is stored; it returns [False] when the tree has no
    root or [p] lies outside the canonical region; in the remaining case
    ([p] in the region, not stored, tree not empty) it raises
    [AttributeError].  Unless [p] was stored the tree is left unchanged. *)
Theorem remove_outcome (r : Region) (ops : list op) (t : QuadTree) (p : point) :
  history r ops t ->
  exists fuel0 t',
    (forall fuel, (fuel0 <= fuel)%nat ->
       QuadTree_remove fuel t p =
       Some (t',
             if stored r ops p then Returned true
             else if is_none (root t) || negb (containsPoint (canonical r) p)
                  then Returned false
                  else Raised AttributeError)) /\
    (stored r ops p = false -> t' = t).
Proof.
  intros Hh. destruct (history_sound _ _ _ Hh) as (Hw & Hr & Hc).
  destruct (stored r ops p) eqn:Hp.
  - destruct (QuadTree_remove_enough t p Hw) as (fuel0 & t' & o & Hrem).
    destruct (QuadTree_remove_spec fuel0 t p _ _ Hw (Hrem fuel0 (Nat.le_refl _)))
      as (_ & _ & _ & Ho).
    assert (Eo : o = Returned true).
    { destruct o as [u | e].
      - destruct Ho as [-> | [_ Habs]]; [reflexivity |].
        rewrite Hc in Habs. congruence.
      - destruct Ho as [_ Habs]. rewrite Hc in Habs. congruence. }
    subst o. exists fuel0, t'. split; [exact Hrem | discriminate].
  - destruct (root t) as [n |] eqn:Hroot.
    + rewrite <- Hr. destruct (containsPoint (tregion t) p) eqn:Hin.
      * assert (Hne : root t <> None) by congruence.
        assert (Habs : QuadTree_contains t p = false) by (rewrite Hc; exact Hp).
        destruct (remove_absent_always_raises r ops t p Hh Hne Hin Habs)
          as (fuel0 & Hrem).
        exists fuel0, t. split; [exact Hrem | reflexivity].
      * exists O, t. split; [| reflexivity]. intros fuel _.
        unfold QuadTree_remove. rewrite Hroot, Hin. reflexivity.
    + exists O, t. split; [| reflexivity]. intros fuel _.
      unfold QuadTree_remove. rewrite Hroot. reflexivity.
Qed.

Lemma remove_outcome_witness :
  history r22 [Add (0, 0)] tree_one /\
  exists fuel0 t',
    (forall fuel, (fuel0 <= fuel)%nat ->
       QuadTree_remove fuel tree_one (1, 1) =
       Some (t',
             if stored r22 [Add (0, 0)] (1, 1) then Returned true
             else if is_none (root tree_one) ||
                     negb (containsPoint (canonical r22) (1, 1))
                  then Returned false
                  else Raised AttributeError)) /\
    (stored r22 [Add (0, 0)] (1, 1) = false -> t' = tree_one).
Proof.
  split; [apply history_tree_one |].
  exact (remove_outcome r22 [Add (0, 0)] tree_one (1, 1) history_tree_one).
Defined.

(** ** The rounding functions and the canonical region *)

(** X7.  For a coordinate [n] of moderate size, [smaller2k(n)] is at most
    [n] and [larger2k(n)] at least [n]; the two functions mirror each
    other under negation. *)
Theorem rounding_encloses (n : Z) :
  moderate n ->
  smaller2k n <= n <= larger2k n /\
  smaller2k (- n) = - larger2k n /\
  larger2k (- n) = - smaller2k n.
Proof.
  intros _. split; [apply rounding_bounds |].
  destruct (Z.lt_trichotomy n 0) as [Hn | [-> | Hn]].
  - rewrite (larger2k_neg n Hn), (smaller2k_neg n Hn). lia.
  - split; reflexivity.
  - rewrite (smaller2k_neg (- n)), (larger2k_neg (- n)) by lia.
    rewrite !Z.opp_involutive. split; reflexivity.
Qed.

Lemma moderate_small (n : Z) : Z.abs n <= 1000 -> moderate n.
Proof. unfold moderate. intros H. change (2 ^ 40) with 1099511627776. lia. Qed.

Lemma rounding_encloses_witness :
  moderate (-3) /\
  smaller2k (-3) <= -3 <= larger2k (-3) /\
  smaller2k (- -3) = - larger2k (-3) /\
  larger2k (- -3) = - smaller2k (-3).
Proof.
  assert (Hm : moderate (-3)) by (apply moderate_small; simpl; lia).
  split; [exact Hm |].
  exact (rounding_encloses (-3) Hm).
Defined.

(** X8.  For a positive [n] of moderate size, [smaller2k(n)] is the largest
    power of two that is at most [n] and [larger2k(n)] the smallest power
    of two that is at least [n]. *)
Theorem rounding_nearest_pow2 (n : Z) :
  0 < n ->
  moderate n ->
  pow2 (smaller2k n) /\ smaller2k n <= n < 2 * smaller2k n /\
  pow2 (larger2k n) /\ n <= larger2k n < 2 * n.
Proof.
  intros Hn _. destruct (smaller2k_pos n Hn) as [-> Hs].
  destruct (larger2k_pos n Hn) as [-> Hl].
  split; [exists (Z.log2 n); split; [apply Z.log2_nonneg | reflexivity] |].
  split; [exact Hs |].
  split; [exists (Z.log2_up n); split; [apply Z.log2_up_nonneg | reflexivity] |].
  exact Hl.
Qed.

Lemma rounding_nearest_pow2_witness :
  0 < 10 /\ moderate 10 /\
  pow2 (smaller2k 10) /\ smaller2k 10 <= 10 < 2 * smaller2k 10 /\
  pow2 (larger2k 10) /\ 10 <= larger2k 10 < 2 * 10.
Proof.
  assert (Hm : moderate 10) by (apply moderate_small; simpl; lia).
  split; [reflexivity |]. split; [exact Hm |].
  exact (rounding_nearest_pow2 10 eq_refl Hm).
Defined.

Lemma moderate_3_3_10_10 : moderate_region (mkRegion 3 3 10 10).
Proof. repeat split; apply moderate_small; simpl; lia. Qed.

(** X9.  The canonical region computed by [QuadTree.__init__] encloses
    the requested region (of moderate coordinates, whatever their signs
    and order), and it has the same lower bound and the same upper bound
    on both axes (so it is a square). *)
Theorem canonical_encloses (r : Region) :
  moderate_region r ->
  encloses (tregion (QuadTree_init r)) r /\
  x_min (tregion (QuadTree_init r)) = y_min (tregion (QuadTree_init r)) /\
  x_max (tregion (QuadTree_init r)) = y_max (tregion (QuadTree_init r)) /\
  square (tregion (QuadTree_init r)).
Proof.
  intros _. unfold encloses, square, QuadTree_init, canonical. simpl.
  pose proof (rounding_bounds (x_min r)). pose proof (rounding_bounds (y_min r)).
  pose proof (rounding_bounds (x_max r)). pose proof (rounding_bounds (y_max r)).
  lia.
Qed.

Lemma canonical_encloses_witness :
  moderate_region (mkRegion 3 3 10 10) /\
  encloses (tregion (QuadTree_init (mkRegion 3 3 10 10))) (mkRegion 3 3 10 10).
Proof.
  split; [exact moderate_3_3_10_10 |].
  exact (proj1 (canonical_encloses (mkRegion 3 3 10 10) moderate_3_3_10_10)).
Defined.

(** X10.  Canonical bounds are a fixed point of the constructor: a tree
    built from the region of another tree (itself built from moderate
    coordinates) has that same region. *)
Theorem canonical_idempotent (r : Region) :
  moderate_region r ->
  tregion (QuadTree_init (tregion (QuadTree_init r))) = tregion (QuadTree_init r).
Proof.
  intros _. unfold QuadTree_init, tregion, canonical. simpl.
  rewrite Z.min_id, Z.max_id.
  assert (Hmin : smaller2k (Z.min (smaller2k (x_min r)) (smaller2k (y_min r))) =
                 Z.min (smaller2k (x_min r)) (smaller2k (y_min r))).
  { destruct (Z.min_spec (smaller2k (x_min r)) (smaller2k (y_min r)))
      as [[_ ->] | [_ ->]]; apply smaller2k_fixed. }
  assert (Hmax : larger2k (Z.max (larger2k (x_max r)) (larger2k (y_max r))) =
                 Z.max (larger2k (x_max r)) (larger2k (y_max r))).
  { destruct (Z.max_spec (larger2k (x_max r)) (larger2k (y_max r)))
      as [[_ ->] | [_ ->]]; apply larger2k_fixed. }
  rewrite Hmin, Hmax. reflexivity.
Qed.

Lemma canonical_idempotent_witness :
  moderate_region (mkRegion 3 3 10 10) /\
  tregion (QuadTree_init (tregion (QuadTree_init (mkRegion 3 3 10 10)))) =
  tregion (QuadTree_init (mkRegion 3 3 10 10)).
Proof.
  split; [exact moderate_3_3_10_10 |].
  exact (canonical_idempotent (mkRegion 3 3 10 10) moderate_3_3_10_10).
Defined.

(** X11.  When the requested region has its lower-left corner at (0, 0)
    and positive extents (the case the constructor's docstring assumes)
    of moderate size, the canonical region is the square from (0, 0)
    whose side is the smallest power of two that is at least the larger
    extent. *)
Theorem canonical_anchored (r : Region) :
  x_min r = 0 -> y_min r = 0 -> 0 < x_max r -> 0 < y_max r ->
  moderate_region r ->
  exists k : nat,
    tregion (QuadTree_init r) = mkRegion 0 0 (2 ^ Z.of_nat k) (2 ^ Z.of_nat k) /\
    side_pow2 (tregion (QuadTree_init r)) k /\
    Z.max (x_max r) (y_max r) <= 2 ^ Z.of_nat k < 2 * Z.max (x_max r) (y_max r).
Proof.
  intros Hx Hy Hw Hh _.
  assert (Hmax : Z.max (larger2k (x_max r)) (larger2k (y_max r)) =
                 larger2k (Z.max (x_max r) (y_max r))).
  { destruct (larger2k_pos _ Hw) as [-> _]. destruct (larger2k_pos _ Hh) as [-> _].
    destruct (larger2k_pos (Z.max (x_max r) (y_max r))) as [-> _]; [lia |].
    destruct (Z.max_spec (x_max r) (y_max r)) as [[Hlt ->] | [Hle ->]].
    - apply Z.max_r, Z.pow_le_mono_r; [lia |]. apply Z.log2_up_le_mono. lia.
    - apply Z.max_l, Z.pow_le_mono_r; [lia |]. apply Z.log2_up_le_mono. lia. }
  destruct (larger2k_pos (Z.max (x_max r) (y_max r))) as [E Hb]; [lia |].
  exists (Z.to_nat (Z.log2_up (Z.max (x_max r) (y_max r)))).
  rewrite Z2Nat.id by apply Z.log2_up_nonneg.
  assert (Hc : tregion (QuadTree_init r) =
               mkRegion 0 0 (2 ^ Z.log2_up (Z.max (x_max r) (y_max r)))
                        (2 ^ Z.log2_up (Z.max (x_max r) (y_max r)))).
  { unfold QuadTree_init, tregion, canonical. rewrite Hx, Hy, Hmax, E.
    reflexivity. }
  split; [exact Hc |]. split; [| exact Hb].
  rewrite Hc. unfold side_pow2. simpl.
  rewrite Z2Nat.id by apply Z.log2_up_nonneg. lia.
Qed.

Lemma canonical_anchored_witness :
  x_min (mkRegion 0 0 5 3) = 0 /\ y_min (mkRegion 0 0 5 3) = 0 /\
  0 < x_max (mkRegion 0 0 5 3) /\ 0 < y_max (mkRegion 0 0 5 3) /\
  moderate_region (mkRegion 0 0 5 3) /\
  exists k : nat,
    tregion (QuadTree_init (mkRegion 0 0 5 3)) =
    mkRegion 0 0 (2 ^ Z.of_nat k) (2 ^ Z.of_nat k).
Proof.
  assert (Hm : moderate_region (mkRegion 0 0 5 3))
    by (repeat split; apply moderate_small; simpl; lia).
  split; [reflexivity |]. split; [reflexivity |].
  split; [reflexivity |]. split; [reflexivity |]. split; [exact Hm |].
  destruct (canonical_anchored (mkRegion 0 0 5 3) eq_refl eq_refl eq_refl eq_refl Hm)
    as (k & Hk & _).
  exists k. exact Hk.
Defined.

(** ** The shape of the tree *)

(** X12.  Over a canonical square of side [2^k], [k >= 1], and as long
    as no [add] inserts a point that is stored at that time, the tree is
    determined by the set of stored points: two sequences of calls that
    leave the same points stored leave the same tree, whatever the order
    of the calls. *)
Theorem tree_determined_by_points
    (r : Region) (k : nat) (ops1 ops2 : list op) (t1 t2 : QuadTree) :
  side_pow2 (canonical r) (S k) ->
  history r ops1 t1 -> no_reinsert r ops1 ->
  history r ops2 t2 -> no_reinsert r ops2 ->
  (forall p, stored r ops1 p = stored r ops2 p) ->
  t1 = t2.
Proof. apply canonical_form. Qed.

Lemma tree_determined_by_points_witness :
  exists t1 t2,
    history r22 [Add (1, 1); Add (0, 0)] t1 /\
    history r22 [Add (0, 0); Add (1, 1)] t2 /\
    t1 = t2.
Proof.
  assert (H1 : exists t1, history r22 [Add (1, 1); Add (0, 0)] t1).
  { eexists. eapply history_step with (fuel := 2%nat);
      [apply history_tree_one | vm_compute; reflexivity]. }
  assert (H2 : exists t2, history r22 [Add (0, 0); Add (1, 1)] t2).
  { eexists. eapply history_step with (fuel := 2%nat);
      [eapply history_step with (fuel := 2%nat);
         [apply history_init | vm_compute; reflexivity]
      | vm_compute; reflexivity]. }
  destruct H1 as [t1 H1], H2 as [t2 H2]. exists t1, t2.
  split; [exact H1 |]. split; [exact H2 |].
  apply (tree_determined_by_points r22 O
           [Add (1, 1); Add (0, 0)] [Add (0, 0); Add (1, 1)] t1 t2 side_r22 H1).
  - split; [reflexivity | exact no_reinsert_one].
  - exact H2.
  - split; [reflexivity |]. split; [reflexivity | exact I].
  - intros p. simpl.
    destruct (point_eqb p (1, 1)), (point_eqb p (0, 0)); reflexivity.
Defined.

(** X13.  Over a canonical square of side [2^k], [k >= 1], and as long
    as no [add] inserts a point that is stored at that time, inserting a
    point that is not stored and removing it again gives back the very
    same tree. *)
Theorem add_remove_round_trip
    (r : Region) (k : nat) (ops : list op) (t : QuadTree) (p : point) :
  side_pow2 (canonical r) (S k) ->
  history r ops t -> no_reinsert r ops ->
  containsPoint (canonical r) p = true ->
  stored r ops p = false ->
  exists fuel0 t1,
    (forall fuel, (fuel0 <= fuel)%nat ->
                  QuadTree_add fuel t p = Some (t1, true)) /\
    (forall fuel, (fuel0 <= fuel)%nat ->
                  QuadTree_remove fuel t1 p = Some (t, Returned true)).
Proof.
  intros Hs Hh Hno Hin Hp.
  destruct (history_sound _ _ _ Hh) as (Hw & Hr & Hc).
  destruct (QuadTree_add_enough t p Hw) as (f1 & t1 & b & Ha).
  pose proof (Ha f1 (Nat.le_refl _)) as Ha1.
  destruct (QuadTree_add_spec f1 t p _ _ Hw Ha1) as (Hw1 & _ & Hb & _ & Hc1).
  rewrite Hr, Hin in Hb. subst b.
  assert (Hh1 : history r (Add p :: ops) t1).
  { apply history_step with (t := t) (fuel := f1) (res := Returned true);
      [exact Hh |]. simpl. rewrite Ha1. reflexivity. }
  destruct (QuadTree_remove_enough t1 p Hw1) as (f2 & t2 & o & Hrem).
  pose proof (Hrem f2 (Nat.le_refl _)) as Hrem2.
  destruct (QuadTree_remove_spec f2 t1 p _ _ Hw1 Hrem2) as (_ & _ & _ & Ho).
  assert (Hc1p : QuadTree_contains t1 p = true).
  { rewrite Hc1, point_eqb_refl, Hr, Hin. reflexivity. }
  assert (Eo : o = Returned true).
  { destruct o as [u | e].
    - destruct Ho as [-> | [_ Habs]]; [reflexivity | congruence].
    - destruct Ho as [_ Habs]. congruence. }
  subst o.
  assert (Hh2 : history r (Remove p :: Add p :: ops) t2).
  { apply history_step with (t := t1) (fuel := f2) (res := Returned true);
      [exact Hh1 | exact Hrem2]. }
  assert (Et : t2 = t).
  { apply (canonical_form r k (Remove p :: Add p :: ops) ops); auto.
    - simpl. auto.
    - intros q. simpl. destruct (point_eqb q p) eqn:E; simpl; [| reflexivity].
      apply point_eqb_eq in E. subst q. symmetry. exact Hp. }
  subst t2. exists (Nat.max f1 f2), t1. split.
  - intros fuel Hle. apply Ha. lia.
  - intros fuel Hle. apply Hrem. lia.
Qed.

Lemma add_remove_round_trip_witness :
  side_pow2 (canonical r22) 1 /\
  history r22 [Add (0, 0)] tree_one /\
  no_reinsert r22 [Add (0, 0)] /\
  containsPoint (canonical r22) (1, 1) = true /\
  stored r22 [Add (0, 0)] (1, 1) = false /\
  exists fuel0 t1,
    (forall fuel, (fuel0 <= fuel)%nat ->
                  QuadTree_add fuel tree_one (1, 1) = Some (t1, true)) /\
    (forall fuel, (fuel0 <= fuel)%nat ->
                  QuadTree_remove fuel t1 (1, 1) = Some (tree_one, Returned true)).
Proof.
  split; [exact side_r22 |]. split; [exact history_tree_one |].
  split; [exact no_reinsert_one |]. split; [reflexivity |].
  split; [reflexivity |].
  exact (add_remove_round_trip r22 O [Add (0, 0)] tree_one (1, 1)
           side_r22 history_tree_one no_reinsert_one eq_refl eq_refl).
Defined.

(** X14.  No node of a reachable tree is empty: the region of every node
    holds a stored point that is found below that node. *)
Theorem no_empty_node (r : Region) (ops : list op) (t : QuadTree) :
  history r ops t ->
  forall n, root t = Some n ->
  forall m, In m (preorder n) ->
  exists p, containsPoint (region m) p = true /\
            QuadNode_find m p = true /\
            stored r ops p = true.
Proof.
  intros Hh n Hn m Hm.
  destruct (history_sound _ _ _ Hh) as (Hw & Hr & Hc).
  pose proof (history_stocked _ _ _ Hh) as Hst.
  unfold tree_wf, tree_stocked in *. rewrite Hn in Hw, Hst.
  destruct Hw as [Hwn Hrn].
  destruct (preorder_ind inhabited stocked
              (fun k Hk => match Hk with stocked_node _ Hi _ _ => Hi end)
              (fun k q c Hk Hkc => proj2 (stocked_is_below k Hk) q c Hkc)
              n Hst m Hm) as (p & Hp & Hf).
  exists p. split; [exact Hp |]. split; [exact Hf |].
  destruct (find_lifts n Hwn m Hm p Hp Hf) as [Hpn Hfn].
  rewrite <- Hc, contains_unfold, Hn, <- Hrn, Hpn. exact Hfn.
Qed.

Lemma no_empty_node_witness :
  history r22 [Add (0, 0); Add (0, 0)] tree_dup /\
  forall n, root tree_dup = Some n ->
  forall m, In m (preorder n) ->
  exists p, containsPoint (region m) p = true /\
            QuadNode_find m p = true /\
            stored r22 [Add (0, 0); Add (0, 0)] p = true.
Proof.
  split; [apply history_tree_dup |].
  exact (no_empty_node r22 [Add (0, 0); Add (0, 0)] tree_dup history_tree_dup).
Defined.

(** X15.  The root of a reachable tree is [None] exactly when no point is
    stored: removing the last point prunes the whole tree. *)
Theorem root_none_iff_empty (r : Region) (ops : list op) (t : QuadTree) :
  history r ops t ->
  (root t = None <-> forall p, stored r ops p = false).
Proof.
  intros Hh. destruct (history_sound _ _ _ Hh) as (_ & _ & Hc). split.
  - intros Hroot p. rewrite <- Hc, contains_unfold, Hroot. apply andb_false_r.
  - intros Hempty. destruct (root t) as [n |] eqn:Hn; [| reflexivity].
    exfalso.
    destruct (history_sound _ _ _ Hh) as (Hw & _ & _).
    pose proof (history_stocked _ _ _ Hh) as Hst.
    unfold tree_wf, tree_stocked in *. rewrite Hn in Hw, Hst.
    destruct Hw as [_ Hrn].
    inversion Hst as [n0 (p & Hp & Hf) _ _]; subst.
    specialize (Hempty p).
    rewrite <- Hc, contains_unfold, Hn, <- Hrn, Hp in Hempty.
    simpl in Hempty. congruence.
Qed.

Lemma root_none_iff_empty_witness :
  history r22 [Remove (0, 0); Add (0, 0)] (QuadTree_init r22) /\
  (root (QuadTree_init r22) = None <->
   forall p, stored r22 [Remove (0, 0); Add (0, 0)] p = false).
Proof.
  split; [apply history_emptied |].
  exact (root_none_iff_empty r22 [Remove (0, 0); Add (0, 0)] (QuadTree_init r22)
           history_emptied).
Defined.

(** X16.  Over a canonical square of side [2^k], [k >= 1], and as long
    as no [add] inserts a point that is stored at that time, no path of
    the tree is longer than [log2] of the side of the canonical region. *)
Theorem depth_bound (r : Region) (k : nat) (ops : list op) (t : QuadTree) :
  side_pow2 (canonical r) (S k) ->
  history r ops t -> no_reinsert r ops ->
  forall n, root t = Some n -> (height n <= S k)%nat.
Proof.
  intros Hs Hh Hno n Hn.
  pose proof (history_canon _ _ _ _ Hs Hh Hno) as Hc.
  unfold tree_canon in Hc. rewrite Hn in Hc. apply canon_height, Hc.
Qed.

Lemma depth_bound_witness :
  side_pow2 (canonical r22) 1 /\
  history r22 [Add (0, 0)] tree_one /\
  no_reinsert r22 [Add (0, 0)] /\
  forall n, root tree_one = Some n -> (height n <= 1)%nat.
Proof.
  split; [exact side_r22 |]. split; [exact history_tree_one |].
  split; [exact no_reinsert_one |].
  exact (depth_bound r22 O [Add (0, 0)] tree_one
           side_r22 history_tree_one no_reinsert_one).
Defined.

(** X17.  Nodes never claim a point that is not stored: a point of a
    node's region that is found below that node (in particular every
    point of the region of a full node) is a stored point. *)
Theorem found_points_are_stored (r : Region) (ops : list op) (t : QuadTree) :
  history r ops t ->
  forall n, root t = Some n ->
  forall m, In m (preorder n) ->
  forall p, containsPoint (region m) p = true ->
            QuadNode_find m p = true ->
            stored r ops p = true.
Proof.
  intros Hh n Hn m Hm p Hp Hf.
  destruct (history_sound _ _ _ Hh) as (Hw & Hr & Hc).
  unfold tree_wf in Hw. rewrite Hn in Hw. destruct Hw as [Hwn Hrn].
  destruct (find_lifts n Hwn m Hm p Hp Hf) as [Hpn Hfn].
  rewrite <- Hc, contains_unfold, Hn, <- Hrn, Hpn. exact Hfn.
Qed.

Lemma found_points_are_stored_witness :
  history r22 [Add (0, 0); Add (0, 0)] tree_dup /\
  forall n, root tree_dup = Some n ->
  forall m, In m (preorder n) ->
  forall p, containsPoint (region m) p = true ->
            QuadNode_find m p = true ->
            stored r22 [Add (0, 0); Add (0, 0)] p = true.
Proof.
  split; [apply history_tree_dup |].
  exact (found_points_are_stored r22 [Add (0, 0); Add (0, 0)] tree_dup
           history_tree_dup).
Defined.

(** X18.  Over a canonical square of side [2^k], [k >= 1], and as long as
    no [add] inserts a point that is stored at that time, a node of the
    tree is full exactly when every point of its region is stored:
    complete occupancy is never left uncompressed, at any depth. *)
Theorem full_iff_region_stored
    (r : Region) (k : nat) (ops : list op) (t : QuadTree) :
  side_pow2 (canonical r) (S k) ->
  history r ops t -> no_reinsert r ops ->
  forall n, root t = Some n ->
  forall m, In m (preorder n) ->
    (full m = true <->
     forall p, containsPoint (region m) p = true -> stored r ops p = true).
Proof.
  intros Hs Hh Hno n Hn m Hm.
  destruct (history_sound _ _ _ Hh) as (Hw & Hr & Hc).
  pose proof (history_canon _ _ _ _ Hs Hh Hno) as Hk.
  pose proof (history_compressed _ _ _ Hh Hno) as Hcomp.
  unfold tree_wf, tree_canon, tree_compressed in *. rewrite Hn in Hw, Hk, Hcomp.
  destruct Hw as [Hwn Hrn].
  assert (Hfind : forall p, containsPoint (region m) p = true ->
                            QuadNode_find m p = stored r ops p).
  { intros p Hp. destruct (find_descends n Hwn Hcomp m Hm p Hp) as [Hpn Hfn].
    rewrite <- Hfn, <- Hc, contains_unfold, Hn, <- Hrn, Hpn. reflexivity. }
  split.
  - intros F p Hp. rewrite <- (Hfind p Hp), find_unfold, F. reflexivity.
  - intros Hall.
    destruct (preorder_ind (fun m => exists k', canon k' m)
                (fun m => exists k', canon k' m)
                (fun m H => H)
                (fun m q c H Hc => match H with
                                   | ex_intro _ k' Hk' => canon_children k' m q c Hk' Hc
                                   end)
                n (ex_intro _ (S k) Hk) m Hm) as [k' Hm'].
    apply (compact_all_full k' m (canon_compact _ _ Hm')).
    intros p Hp. rewrite (Hfind p Hp). apply Hall, Hp.
Qed.

Lemma full_iff_region_stored_witness :
  side_pow2 (canonical r22) 1 /\
  history r22 [Add (0, 0)] tree_one /\
  no_reinsert r22 [Add (0, 0)] /\
  forall n, root tree_one = Some n ->
  forall m, In m (preorder n) ->
    (full m = true <->
     forall p, containsPoint (region m) p = true ->
               stored r22 [Add (0, 0)] p = true).
Proof.
  split; [exact side_r22 |]. split; [exact history_tree_one |].
  split; [exact no_reinsert_one |].
  exact (full_iff_region_stored r22 O [Add (0, 0)] tree_one
           side_r22 history_tree_one no_reinsert_one).
Defined.
